(** * A shallow embedding of [content/contest/template.cpp]

    The contest template defines, in this order: typing shortcuts (among
    them [#define int long long]), the [ordered_set] alias of the policy
    based red-black tree with order statistics, the [debug] macro and the
    [_print] overloads, [randInt], the recursive [gcd] and [lcm], the empty
    [solve] and [main].  Each part is embedded in a module of its own, the
    definitions first and the lemmas about them after. *)

From Stdlib Require Import ZArith List Lia Bool Arith Permutation Sorted.
From Stdlib Require Import String Ascii DecimalString DecimalPos DecimalZ.
From Equations Require Import Equations.
Import ListNotations.

Set Warnings "-register-all".
Local Open Scope Z_scope.

(** ** [long long]: the template's [int] *)

Module Int64.

Definition min_int : Z := - 2 ^ 63.
Definition max_int : Z := 2 ^ 63 - 1.

(** The values a [long long] holds. *)
Definition in_range (z : Z) : Prop := min_int <= z <= max_int.

(** Two's complement wrap-around of a mathematical result. *)
Definition wrap (z : Z) : Z := (z + 2 ^ 63) mod 2 ^ 64 - 2 ^ 63.

(** [a * b] on [long long]. *)
Definition mul (a b : Z) : Z := wrap (a * b).

(** [a / b] on [long long]: C++ division truncates toward zero.  Division
    by zero is undefined in C++ and no caller below divides by zero on the
    arguments the properties range over. *)
Definition div (a b : Z) : Z := wrap (Z.quot a b).

(** [a % b] on [long long]: the remainder takes the sign of [a]; its
    magnitude is below that of [b], so nothing wraps. *)
Definition rem (a b : Z) : Z := Z.rem a b.

(** [a + b] on [long long]. *)
Definition add (a b : Z) : Z := wrap (a + b).

End Int64.

(** ** Constants *)

Module Constants.

(** [const int MOD = 1e9 + 7;], [const int INF = 1e18;] and
    [const int N = 2e5 + 5;]: each initialiser is a whole number that a
    [double] holds exactly, converted to [long long]. *)
Definition MOD : Z := 1000000007.
Definition INF : Z := 1000000000000000000.
Definition N : Z := 200005.

End Constants.

(** ** Useful functions: [gcd] and [lcm] *)

Module Numeric.

(** [int gcd(int a, int b) { return b == 0 ? a : gcd(b, a % b); }] *)
Equations? gcd (a b : Z) : Z by wf (Z.abs_nat b) lt :=
  gcd a b with Z.eq_dec b 0 => {
    | left _ := a;
    | right _ := gcd b (Int64.rem a b) }.
Proof.
  unfold Int64.rem.
  pose proof (Z.rem_bound_abs a b ltac:(assumption)). lia.
Qed.

(** The same recursion with the depth of the call stack bounded by
    [fuel]: [None] when the bound is hit before the base case. *)
Fixpoint gcd_fuel (fuel : nat) (a b : Z) : option Z :=
  match fuel with
  | O => None
  | S fuel' => if b =? 0 then Some a else gcd_fuel fuel' b (Int64.rem a b)
  end.

(** The argument pairs of the recursion: [gcd_call callee caller]. *)
Inductive gcd_call : Z * Z -> Z * Z -> Prop :=
| gcd_call_rec (a b : Z) : b <> 0 -> gcd_call (b, Int64.rem a b) (a, b).

(** The arguments of every activation of [gcd a b], outermost first. *)
Equations? gcd_args (a b : Z) : list (Z * Z) by wf (Z.abs_nat b) lt :=
  gcd_args a b with Z.eq_dec b 0 => {
    | left _ := [(a, b)];
    | right _ := (a, b) :: gcd_args b (Int64.rem a b) }.
Proof.
  unfold Int64.rem.
  pose proof (Z.rem_bound_abs a b ltac:(assumption)). lia.
Qed.

(** [int lcm(int a, int b) { return (a / gcd(a, b)) * b; }] *)
Definition lcm (a b : Z) : Z := Int64.mul (Int64.div a (gcd a b)) b.

(** The naive order, multiplying first: [(a * b) / gcd(a, b)]. *)
Definition lcm_naive (a b : Z) : Z := Int64.div (Int64.mul a b) (gcd a b).

(** The values [lcm a b] computes on its way, before any wrap-around: the
    arguments that pass through [gcd], its result, the quotient and the
    product. *)
Definition lcm_intermediates (a b : Z) : list Z :=
  flat_map (fun p => [fst p; snd p]) (gcd_args a b)
    ++ [gcd a b; Z.quot a (gcd a b); Z.quot a (gcd a b) * b].

End Numeric.

(** ** Ordered set (policy based)

    [ordered_set<T>] is [__gnu_pbds::tree<T, null_type, less<T>, rb_tree_tag,
    tree_order_statistics_node_update>], instantiated here at the template's
    [int] ([long long]) with keys compared by [less<int>]. *)

Module OrderedSet.

Inductive color : Type := Red | Black.

(** Modelled from the spec: the nodes of the library's tree (not under
    src/), a balanced binary search tree augmented with subtree sizes.  A
    node holds its colour, both children, its value and the annotation of
    the node-update policy; [Leaf] is the null pointer. *)
Inductive tree : Type :=
| Leaf
| Node (c : color) (l : tree) (v : Z) (meta : nat) (r : tree).

(** Modelled from the spec: the container [__gnu_pbds::tree] is library
    code, not under src/ (only the alias at template.cpp:31-38 is).  The
    spec describes it as a standard augmented balanced binary search tree
    with unique keys, sorted in-order traversal and subtree-size
    annotations kept consistent under insertion.  [metadata] reads the
    annotation the way the policy's queries do: a null child counts 0;
    [size_type] values are node counts and never wrap, so they are [nat]. *)
Definition metadata (t : tree) : nat :=
  match t with
  | Leaf => 0
  | Node _ _ _ m _ => m
  end.

(** Modelled from the spec: the node-update policy (library code, not
    under src/) keeps the subtree-size annotation consistent: the size of
    a node is one plus the sizes of its children. *)
Definition update (c : color) (l : tree) (v : Z) (r : tree) : tree :=
  Node c l v (1 + metadata l + metadata r) r.

Definition empty : tree := Leaf.

Definition is_red (t : tree) : bool :=
  match t with
  | Node Red _ _ _ _ => true
  | _ => false
  end.

Definition paint_black (t : tree) : tree :=
  match t with
  | Leaf => Leaf
  | Node _ l v m r => Node Black l v m r
  end.

(** Modelled from the spec: red-black rebalancing of the library's tree
    (not under src/) after an insertion into the left subtree [l] of a
    node with value [v] and right subtree [r]: a red child with a red
    grandchild is repaired by recolouring when the uncle [r] is red and by
    rotations otherwise, each rebuilt node refreshing its annotation. *)
Definition fixup_left (c : color) (l : tree) (v : Z) (r : tree) : tree :=
  match l with
  | Node Red (Node Red a x _ b) y _ d =>
      if is_red r
      then update Red (update Black (update Red a x b) y d) v (paint_black r)
      else update Black (update Red a x b) y (update Red d v r)
  | Node Red a x _ (Node Red b y _ d) =>
      if is_red r
      then update Red (update Black a x (update Red b y d)) v (paint_black r)
      else update Black (update Red a x b) y (update Red d v r)
  | _ => update c l v r
  end.

(** Modelled from the spec: the mirror image of [fixup_left], after an
    insertion into the right subtree. *)
Definition fixup_right (c : color) (l : tree) (v : Z) (r : tree) : tree :=
  match r with
  | Node Red b y _ (Node Red d z _ e) =>
      if is_red l
      then update Red (paint_black l) v (update Black b y (update Red d z e))
      else update Black (update Red l v b) y (update Red d z e)
  | Node Red (Node Red b y _ d) z _ e =>
      if is_red l
      then update Red (paint_black l) v (update Black (update Red b y d) z e)
      else update Black (update Red l v b) y (update Red d z e)
  | _ => update c l v r
  end.

(** Modelled from the spec: insertion below the root of the library's
    tree (not under src/).  Keys are unique: a key already present leaves
    the tree as it is and reports [false]; a new key becomes a red leaf
    at its place in the search order and the path back is rebalanced. *)
Fixpoint ins (x : Z) (t : tree) : tree * bool :=
  match t with
  | Leaf => (update Red Leaf x Leaf, true)
  | Node c l v m r =>
      if x <? v then
        let (l', fresh) := ins x l in
        (if fresh then fixup_left c l' v r else t, fresh)
      else if v <? x then
        let (r', fresh) := ins x r in
        (if fresh then fixup_right c l v r' else t, fresh)
      else (t, false)
  end.

(** Modelled from the spec: [insert] of the library's tree (not under
    src/): insertion as above, the root painted black at the end; the
    boolean is the second component of the returned pair. *)
Definition insert (x : Z) (t : tree) : tree * bool :=
  let (t', fresh) := ins x t in (paint_black t', fresh).

(** Modelled from the spec: [order_of_key] of the library's policy (not
    under src/; documented at template.cpp:28 as the number of elements
    strictly less than the key).  The query walks down from the root with
    an accumulator: left when the key is smaller, right adding the left
    subtree and the node when it is larger, stopping on an equal key. *)
Fixpoint order_of_key_from (ord : nat) (it : tree) (key : Z) : nat :=
  match it with
  | Leaf => ord
  | Node _ l v _ r =>
      if key <? v then order_of_key_from ord l key
      else if v <? key then order_of_key_from (ord + (1 + metadata l)) r key
      else (ord + metadata l)%nat
  end.

Definition order_of_key (t : tree) (key : Z) : nat :=
  order_of_key_from 0 t key.

(** Modelled from the spec: [find_by_order] of the library's policy (not
    under src/; documented at template.cpp:29 as the iterator to the k-th
    element, 0-based).  [None] is the end iterator. *)
Fixpoint find_by_order (it : tree) (order : nat) : option Z :=
  match it with
  | Leaf => None
  | Node _ l v _ r =>
      let o := metadata l in
      if (order =? o)%nat then Some v
      else if (order <? o)%nat then find_by_order l order
      else find_by_order r (order - (o + 1))
  end.

(** The number of elements held ([size()]). *)
Fixpoint size (t : tree) : nat :=
  match t with
  | Leaf => 0
  | Node _ l _ _ r => size l + 1 + size r
  end.

(** The elements in iteration order (in-order traversal). *)
Fixpoint elements (t : tree) : list Z :=
  match t with
  | Leaf => []
  | Node _ l v _ r => elements l ++ v :: elements r
  end.

(** Inserting [e1..en], in this order, into [t]. *)
Definition insert_all (es : list Z) (t : tree) : tree :=
  fold_left (fun acc e => fst (insert e acc)) es t.

(** The elements among [e1..en] whose [insert] reported a new element. *)
Fixpoint inserted_from (es : list Z) (t : tree) : list Z :=
  match es with
  | [] => []
  | e :: es' =>
      let (t', fresh) := insert e t in
      if fresh then e :: inserted_from es' t' else inserted_from es' t'
  end.

(** How many elements of [l] are strictly less than [e]. *)
Definition count_less (e : Z) (l : list Z) : nat :=
  List.length (filter (fun x => x <? e) l).

(** Every annotation is the size of its subtree. *)
Fixpoint annotated (t : tree) : Prop :=
  match t with
  | Leaf => True
  | Node _ l _ m r => m = (size l + 1 + size r)%nat /\ annotated l /\ annotated r
  end.

(** The search-tree invariant: in-order traversal is strictly increasing
    (so keys are unique). *)
Definition ordered (t : tree) : Prop := StronglySorted Z.lt (elements t).

(** Insertion into a strictly increasing list, the list view of [ins]. *)
Fixpoint ins_list (x : Z) (l : list Z) : list Z :=
  match l with
  | [] => [x]
  | y :: l' =>
      if x <? y then x :: l
      else if y <? x then y :: ins_list x l'
      else l
  end.

(** The balance invariant of a red-black tree with black height [n]: a
    red node has no red child, and every path from a node down to a null
    pointer passes the same number of black nodes. *)
Inductive red_black : tree -> nat -> Prop :=
| rb_leaf : red_black Leaf 0
| rb_red l v m r n :
    is_red l = false -> is_red r = false ->
    red_black l n -> red_black r n ->
    red_black (Node Red l v m r) n
| rb_black l v m r n :
    red_black l n -> red_black r n ->
    red_black (Node Black l v m r) (S n).

(** The invariant on the way back from an insertion: the root of the
    subtree may be red with one red child, which the node above repairs. *)
Definition nearly_red_black (t : tree) (n : nat) : Prop :=
  match t with
  | Node Red l _ _ r =>
      red_black l n /\ red_black r n /\ (is_red l = false \/ is_red r = false)
  | _ => red_black t n
  end.

(** The number of nodes on the longest path down from the root: the most
    steps a query takes. *)
Fixpoint height (t : tree) : nat :=
  match t with
  | Leaf => 0
  | Node _ l _ _ r => S (Nat.max (height l) (height r))
  end.

End OrderedSet.

(** ** Random generator: [rng] and [randInt] *)

Module Random.

(** Conversion to the 64-bit and 32-bit unsigned types. *)
Definition u64 (z : Z) : Z := z mod 2 ^ 64.
Definition u32 (z : Z) : Z := z mod 2 ^ 32.

(** The bounds [mt19937] declares: [min()] and [max()]. *)
Definition urngmin : Z := 0.
Definition urngmax : Z := 2 ^ 32 - 1.
Definition urngrange : Z := urngmax - urngmin.

Section Engine.

(** The state of the global [rng] and one call of its [operator()]: the
    Mersenne twister itself is library code and its seed is a clock
    reading, so the engine is a parameter. *)
Variable engine : Type.
Variable draw : engine -> Z * engine.

(** Modelled from the spec: the rejection loop of the library's
    downscaling step (not under src/), which redraws while the low word
    of the product lies under the threshold, so that the draw from the
    range stays uniform. *)
Fixpoint nd_retry (fuel : nat) (range threshold product : Z) (g : engine)
  : option (Z * engine) :=
  if u32 product <? threshold then
    match fuel with
    | O => None
    | S fuel' =>
        let (x, g') := draw g in
        nd_retry fuel' range threshold (u64 (u64 x * u64 range)) g'
    end
  else Some (product, g).

(** Modelled from the spec: the library's downscaling of one 32-bit word
    of the engine to [[0, range)] (not under src/): the high word of the
    64-bit product of the word and [range]. *)
Definition nd (fuel : nat) (range : Z) (g : engine) : option (Z * engine) :=
  let (x, g1) := draw g in
  let product := u64 (u64 x * u64 range) in
  if u32 product <? range then
    let threshold := u32 (- range) mod range in
    match nd_retry fuel range threshold product g1 with
    | Some (p, g2) => Some (u32 (Z.shiftr p 32), g2)
    | None => None
    end
  else Some (u32 (Z.shiftr product 32), g1).

(** Modelled from the spec: the library's upscaling loop (not under
    src/) for a range wider than the engine's: [high_part] draws the
    high part, one more word is the low part, and the pair is redrawn
    while the sum leaves [[0, urange]] or wraps around. *)
Fixpoint upscale (high_part : engine -> option (Z * engine))
         (urange : Z) (fuel : nat) (g : engine) : option (Z * engine) :=
  match fuel with
  | O => None
  | S fuel' =>
      match high_part g with
      | None => None
      | Some (high, g1) =>
          let uerngrange := u64 (urngrange + 1) in
          let tmp := u64 (uerngrange * u64 high) in
          let (x, g2) := draw g1 in
          let ret := u64 (tmp + u64 (u64 x - urngmin)) in
          if (urange <? ret) || (ret <? tmp)
          then upscale high_part urange fuel' g2
          else Some (ret, g2)
      end
  end.

(** Modelled from the spec: [uniform_int_distribution<int>(a, b)]
    applied to the engine (library code, not under src/), which draws
    from the caller-given inclusive range [[a, b]].  With [urange] the
    width [b - a] as an unsigned 64-bit value: a width under the
    engine's is downscaled; a wider one is upscaled, its high part
    drawn from [[0, urange / 2^32]]; an equal one takes the word as it
    is.  The result is the draw plus [a], as a [long long].  [fuel]
    bounds the redraws: [None] when it runs out. *)
Fixpoint uniform_int_distribution (fuel : nat) (a b : Z) (g : engine)
  : option (Z * engine) :=
  match fuel with
  | O => None
  | S fuel' =>
      let urange := u64 (u64 b - u64 a) in
      let drawn :=
        if urange <? urngrange then
          let uerange := u64 (urange + 1) in
          nd fuel' (u32 uerange) g
        else if urngrange <? urange then
          let uerngrange := u64 (urngrange + 1) in
          upscale
            (uniform_int_distribution fuel' 0 (Int64.wrap (urange / uerngrange)))
            urange fuel' g
        else
          let (x, g1) := draw g in Some (u64 (u64 x - urngmin), g1)
      in
      match drawn with
      | Some (ret, g') => Some (Int64.wrap (u64 (ret + u64 a)), g')
      | None => None
      end
  end.

(** [int randInt(int l, int r) { return uniform_int_distribution<int>(l, r)(rng); }] *)
Definition randInt (fuel : nat) (l r : Z) (rng : engine) : option (Z * engine) :=
  uniform_int_distribution fuel l r rng.

(** The engine yields 32-bit words, as [mt19937] does. *)
Definition word_engine : Prop :=
  forall g, urngmin <= fst (draw g) <= urngmax.

(** The state of the engine after [k] more draws, and the word drawn
    then. *)
Fixpoint skip (k : nat) (g : engine) : engine :=
  match k with
  | O => g
  | S k' => skip k' (snd (draw g))
  end.

Definition word_at (k : nat) (g : engine) : Z := fst (draw (skip k g)).

(** The output that follows state [g] runs through every four 32-bit
    words in a row.  The output of [mt19937] is equidistributed in 623
    dimensions: over its period every run of up to 623 words comes up. *)
Definition runs_through (g : engine) : Prop :=
  forall w0 w1 w2 w3 : Z,
    0 <= w0 < 2 ^ 32 -> 0 <= w1 < 2 ^ 32 ->
    0 <= w2 < 2 ^ 32 -> 0 <= w3 < 2 ^ 32 ->
    exists k, word_at k g = w0 /\ word_at (S k) g = w1 /\
              word_at (S (S k)) g = w2 /\ word_at (S (S (S k))) g = w3.

End Engine.

(** The test of the library's downscaling loop on a word [x] for a range
    of [W] values: the low word of the product is not below the
    threshold. *)
Definition accepted (W x : Z) : Prop :=
  (2 ^ 32 - W) mod W <= (x * W) mod 2 ^ 32.

(** An engine that counts: its state is the number of words handed out,
    and the words are the four 32-bit limbs of 0, of 1, of 2 and so on,
    lowest limb first. *)
Definition odometer_draw (n : nat) : Z * nat :=
  let z := Z.of_nat n in
  ((z / 4 / 2 ^ (32 * (z mod 4))) mod 2 ^ 32, S n).

(** An engine stuck at the word 0. *)
Definition zero_draw (g : unit) : Z * unit := (0, tt).

(** A linear congruential engine over 64-bit states that hands out the
    high 32 bits, used to run [randInt] on concrete draws. *)
Definition lcg_draw (s : Z) : Z * Z :=
  let s' := (s * 6364136223846793005 + 1442695040888963407) mod 2 ^ 64 in
  (Z.shiftr s' 32, s').

End Random.

(** ** The program: streams, [debug], [solve] and [main] *)

Module Program.

Local Open Scope string_scope.

(** Where a standard stream is connected. *)
Inductive target : Type :=
| Console
| File (path : string)
| Broken.

(** What the process can observe and change: the stream settings made by
    [main], the targets of the three standard streams, the characters
    written to [cout] and [cerr], and which files the environment lets
    [freopen] open. *)
Record world : Type := mkWorld {
  sync_with_stdio : bool;
  cin_tied : bool;
  cout_tied : bool;
  stdin_from : target;
  stdout_to : target;
  stderr_to : target;
  cout : string;
  cerr : string;
  openable : string -> bool
}.

Definition set_sync (b : bool) (w : world) : world :=
  mkWorld b (cin_tied w) (cout_tied w) (stdin_from w) (stdout_to w)
          (stderr_to w) (cout w) (cerr w) (openable w).

Definition set_cin_tied (b : bool) (w : world) : world :=
  mkWorld (sync_with_stdio w) b (cout_tied w) (stdin_from w) (stdout_to w)
          (stderr_to w) (cout w) (cerr w) (openable w).

Definition set_cout_tied (b : bool) (w : world) : world :=
  mkWorld (sync_with_stdio w) (cin_tied w) b (stdin_from w) (stdout_to w)
          (stderr_to w) (cout w) (cerr w) (openable w).

Definition set_stdin (t : target) (w : world) : world :=
  mkWorld (sync_with_stdio w) (cin_tied w) (cout_tied w) t (stdout_to w)
          (stderr_to w) (cout w) (cerr w) (openable w).

Definition set_stdout (t : target) (w : world) : world :=
  mkWorld (sync_with_stdio w) (cin_tied w) (cout_tied w) (stdin_from w) t
          (stderr_to w) (cout w) (cerr w) (openable w).

Definition set_stderr (t : target) (w : world) : world :=
  mkWorld (sync_with_stdio w) (cin_tied w) (cout_tied w) (stdin_from w)
          (stdout_to w) t (cout w) (cerr w) (openable w).

(** [cerr << s] *)
Definition cerr_write (s : string) (w : world) : world :=
  mkWorld (sync_with_stdio w) (cin_tied w) (cout_tied w) (stdin_from w)
          (stdout_to w) (stderr_to w) (cout w) (cerr w ++ s) (openable w).

(** [freopen(path, mode, stream)]: the stream is reconnected to the file,
    or left broken when the file cannot be opened; the result is ignored
    by [main]. *)
Definition freopen (path : string) (w : world) : target :=
  if openable w path then File path else Broken.

(** *** Debug tools *)

(** The values the [_print] overloads accept. *)
Inductive value : Type :=
| VInt (x : Z)
| VString (s : string)
| VChar (c : ascii)
| VBool (b : bool)
| VPair (p q : value)
| VVector (v : list value)
| VSet (v : list value)
| VMap (v : list (value * value)).

Definition endl : string := String (ascii_of_nat 10) EmptyString.

(** What [_print(x)] sends to [cerr]; a set and a map are given in
    iteration order, and a map entry prints as a pair. *)
Fixpoint _print (x : value) : string :=
  match x with
  | VInt x => NilZero.string_of_int (Z.to_int x)
  | VString s => s
  | VChar c => String c EmptyString
  | VBool b => if b then "true" else "false"
  | VPair p q => "{" ++ _print p ++ ", " ++ _print q ++ "}"
  | VVector v => "[ " ++ fold_right (fun i out => _print i ++ " " ++ out) "]" v
  | VSet v => "{ " ++ fold_right (fun i out => _print i ++ " " ++ out) "}" v
  | VMap v =>
      "{ " ++ fold_right
                (fun i out =>
                   ("{" ++ _print (fst i) ++ ", " ++ _print (snd i) ++ "}")
                     ++ " " ++ out) "}" v
  end.

(** An argument of [debug]: its source text (for [#x]) and its
    evaluation, which may change the world. *)
Record expr : Type := mkExpr {
  text : string;
  eval : world -> value * world
}.

(** The statements [debug(x)] can expand to. *)
Inductive stmt : Type :=
| CerrText (s : string)
| PrintExpr (x : expr).

(** The two definitions of the macro, chosen by [ONLINE_JUDGE]:
    [cerr << #x << " = "; _print(x); cerr << endl;] in a local build and
    nothing in a judge build. *)
Definition debug (ONLINE_JUDGE : bool) (x : expr) : list stmt :=
  if ONLINE_JUDGE then []
  else [CerrText (text x); CerrText " = "; PrintExpr x; CerrText endl].

Definition exec_stmt (w : world) (s : stmt) : world :=
  match s with
  | CerrText s => cerr_write s w
  | PrintExpr x => let (v, w') := eval x w in cerr_write (_print v) w'
  end.

Definition exec (ss : list stmt) (w : world) : world :=
  fold_left exec_stmt ss w.

(** *** [solve] and [main] *)

(** [void solve() { }]: the stub does nothing. *)
Definition solve (w : world) : world := w.

(** The world together with the number of calls of [solve] made so far. *)
Record state : Type := mkState {
  now : world;
  solve_calls : nat
}.

Definition call (body : world -> world) (s : state) : state :=
  mkState (body (now s)) (S (solve_calls s)).

(** [while (t--) solve();]: the test reads [t] and then decrements it.
    [fuel] bounds the number of tests. *)
Fixpoint while_t (fuel : nat) (body : world -> world) (t : Z) (s : state)
  : option (Z * state) :=
  match fuel with
  | O => None
  | S fuel' =>
      let t' := Int64.wrap (t - 1) in
      if (t =? 0)%Z then Some (t', s)
      else while_t fuel' body t' (call body s)
  end.

(** [int32_t main()], for either value of the build flag and a given body
    of [solve]: the exit status and the final state. *)
Definition main_with (ONLINE_JUDGE : bool) (body : world -> world)
           (fuel : nat) (w : world) : option (Z * state) :=
  let w := set_sync false w in
  let w := set_cin_tied false w in
  let w := set_cout_tied false w in
  let w :=
    if ONLINE_JUDGE then w
    else
      let w := set_stdin (freopen "input.txt" w) w in
      let w := set_stdout (freopen "output.txt" w) w in
      set_stderr (freopen "debug.txt" w) w
  in
  let t := 1 in
  match while_t fuel body t (mkState w 0) with
  | Some (_, s) => Some (0, s)
  | None => None
  end.

Definition main (ONLINE_JUDGE : bool) (fuel : nat) (w : world)
  : option (Z * state) :=
  main_with ONLINE_JUDGE solve fuel w.

(** *** The expansion of [debug] under an [if] *)

(** The expansion of [debug(x)] statement by statement: three statements
    in a local build (the first one two insertions into [cerr]), none in a
    judge build. *)
Definition debug_statements (ONLINE_JUDGE : bool) (x : expr) : list (list stmt) :=
  if ONLINE_JUDGE then []
  else [[CerrText (text x); CerrText " = "]; [PrintExpr x]; [CerrText endl]].

(** [if (c) debug(x);]: the macro body is not wrapped in a block, so its
    text is spliced in after the condition: the [if] governs the first
    statement of the expansion (the empty statement when the expansion is
    empty) and the remaining statements follow unconditionally. *)
Definition exec_if_debug (ONLINE_JUDGE c : bool) (x : expr) (w : world) : world :=
  match debug_statements ONLINE_JUDGE x with
  | [] => w
  | first :: rest => exec (List.concat rest) (if c then exec first w else w)
  end.

(** *** Fixtures for running the program *)

(** An argument with a side effect: a call that writes [+] to [cout] and
    yields 41. *)
Definition noisy : expr :=
  mkExpr "next()"
         (fun w => (VInt 41,
                    mkWorld (sync_with_stdio w) (cin_tied w) (cout_tied w)
                            (stdin_from w) (stdout_to w) (stderr_to w)
                            (cout w ++ "+") (cerr w) (openable w))).

Definition console : world :=
  mkWorld true true false Console Console Console "" "" (fun _ => true).

End Program.

(** * Properties *)

(** ** Facts about [long long] arithmetic *)

Module Int64Facts.
Import Int64.

Lemma wrap_in_range z : in_range (wrap z).
Proof.
  unfold in_range, wrap, min_int, max_int.
  pose proof (Z.mod_pos_bound (z + 2 ^ 63) (2 ^ 64) ltac:(lia)). lia.
Qed.

Lemma wrap_id z : in_range z -> wrap z = z.
Proof.
  unfold in_range, wrap, min_int, max_int. intros Hz.
  rewrite Z.mod_small by lia. lia.
Qed.

Lemma wrap_eqm z : (wrap z) mod 2 ^ 64 = z mod 2 ^ 64.
Proof.
  unfold wrap.
  rewrite Zminus_mod, Zmod_mod, <- Zminus_mod. f_equal. lia.
Qed.

Lemma wrap_congr x y : x mod 2 ^ 64 = y mod 2 ^ 64 -> wrap x = wrap y.
Proof.
  intros H. unfold wrap.
  rewrite (Zplus_mod x), (Zplus_mod y), H. reflexivity.
Qed.

(** Multiplying a wrapped value wraps to the same result as multiplying
    the exact one: [long long] products agree modulo [2^64]. *)
Lemma mul_wrap_l x y : mul (wrap x) y = mul x y.
Proof.
  unfold mul. apply wrap_congr.
  rewrite Zmult_mod, wrap_eqm, <- Zmult_mod. reflexivity.
Qed.

End Int64Facts.

(** ** Facts about the constants *)

Module ConstantsFacts.
Import Constants.

(** X13: [MOD] is small enough for modular arithmetic in [long long]: the
    sum and the product of two residues below [MOD] do not wrap, so
    [(x * y) % MOD] and [(x + y) % MOD] are the mathematical residues. *)
Theorem residues_do_not_overflow (x y : Z) :
  0 <= x < MOD -> 0 <= y < MOD ->
  Int64.mul x y = x * y /\ Int64.add x y = x + y /\
  Int64.rem (Int64.mul x y) MOD = (x * y) mod MOD /\
  Int64.rem (Int64.add x y) MOD = (x + y) mod MOD.
Proof.
  unfold MOD. intros Hx Hy.
  assert (Hm : Int64.mul x y = x * y).
  { apply Int64Facts.wrap_id.
    unfold Int64.in_range, Int64.min_int, Int64.max_int. nia. }
  assert (Ha : Int64.add x y = x + y).
  { apply Int64Facts.wrap_id.
    unfold Int64.in_range, Int64.min_int, Int64.max_int. lia. }
  rewrite Hm, Ha. unfold Int64.rem.
  repeat split; apply Z.rem_mod_nonneg; nia.
Qed.

Lemma residues_do_not_overflow_witness :
  (0 <= 1000000006 < MOD /\ 0 <= 1000000006 < MOD) /\
  (Int64.mul 1000000006 1000000006 = 1000000006 * 1000000006 /\
   Int64.add 1000000006 1000000006 = 1000000006 + 1000000006 /\
   Int64.rem (Int64.mul 1000000006 1000000006) MOD
     = (1000000006 * 1000000006) mod MOD /\
   Int64.rem (Int64.add 1000000006 1000000006) MOD
     = (1000000006 + 1000000006) mod MOD).
Proof.
  split; [unfold MOD; lia|].
  apply (residues_do_not_overflow 1000000006 1000000006); unfold MOD; lia.
Defined.

(** X14: [INF] leaves room for sums: adding two values between [-INF] and
    [INF] does not wrap. *)
Theorem inf_sums_do_not_overflow (x y : Z) :
  - INF <= x <= INF -> - INF <= y <= INF ->
  Int64.in_range INF /\ Int64.add x y = x + y.
Proof.
  unfold INF. intros Hx Hy. split.
  - unfold Int64.in_range, Int64.min_int, Int64.max_int. lia.
  - apply Int64Facts.wrap_id.
    unfold Int64.in_range, Int64.min_int, Int64.max_int. lia.
Qed.

Lemma inf_sums_do_not_overflow_witness :
  (- INF <= INF <= INF /\ - INF <= INF <= INF) /\
  (Int64.in_range INF /\ Int64.add INF INF = INF + INF).
Proof.
  split; [unfold INF; lia|].
  apply (inf_sums_do_not_overflow INF INF); unfold INF; lia.
Defined.

End ConstantsFacts.

(** ** Facts about [gcd] and [lcm] *)

Module NumericFacts.
Import Numeric.

(** The body of [gcd], as the source writes it. *)
Lemma gcd_unfold a b :
  gcd a b = if b =? 0 then a else gcd b (Int64.rem a b).
Proof.
  rewrite gcd_equation_1.
  destruct (Z.eq_dec b 0) as [->|Hb]; cbn.
  - reflexivity.
  - apply Z.eqb_neq in Hb. rewrite Hb. reflexivity.
Qed.

Lemma gcd_args_unfold a b :
  gcd_args a b =
    if b =? 0 then [(a, b)] else (a, b) :: gcd_args b (Int64.rem a b).
Proof.
  rewrite gcd_args_equation_1.
  destruct (Z.eq_dec b 0) as [->|Hb]; cbn.
  - reflexivity.
  - apply Z.eqb_neq in Hb. rewrite Hb. reflexivity.
Qed.

(** On non-negative operands [%] is the mathematical [mod]. *)
Lemma rem_nonneg a b : 0 <= a -> 0 < b -> Int64.rem a b = a mod b.
Proof. intros. unfold Int64.rem. apply Z.rem_mod_nonneg; lia. Qed.

(** Induction along the recursion of [gcd] on non-negative arguments. *)
Lemma gcd_rec_ind (P : Z -> Z -> Prop) :
  (forall a, 0 <= a -> P a 0) ->
  (forall a b, 0 <= a -> 0 < b -> P b (a mod b) -> P a b) ->
  forall a b, 0 <= a -> 0 <= b -> P a b.
Proof.
  intros Hbase Hstep a b Ha Hb.
  remember (Z.to_nat b) as n eqn:Hn. revert a b Ha Hb Hn.
  induction n as [n IH] using lt_wf_ind. intros a b Ha Hb Hn.
  destruct (Z.eq_dec b 0) as [->|Hne]; [now apply Hbase|].
  pose proof (Z.mod_pos_bound a b ltac:(lia)) as Hm.
  apply Hstep; try lia.
  apply (IH (Z.to_nat (a mod b))); lia.
Qed.

Lemma gcd_step a b : 0 <= a -> 0 < b -> gcd a b = gcd b (a mod b).
Proof.
  intros Ha Hb. rewrite gcd_unfold.
  destruct (Z.eqb_spec b 0); [lia|]. now rewrite rem_nonneg.
Qed.

Lemma gcd_base a : gcd a 0 = a.
Proof. now rewrite gcd_unfold. Qed.

(** On non-negative arguments the function computes the greatest common
    divisor. *)
Lemma gcd_is_Zgcd a b : 0 <= a -> 0 <= b -> gcd a b = Z.gcd a b.
Proof.
  intros Ha Hb. revert a b Ha Hb. apply gcd_rec_ind.
  - intros a Ha. rewrite gcd_base, Z.gcd_0_r. lia.
  - intros a b Ha Hb IH. rewrite gcd_step, IH by lia.
    rewrite Z.gcd_comm, Z.gcd_mod by lia. apply Z.gcd_comm.
Qed.

Lemma gcd_fuel_enough fuel a b :
  0 <= a -> 0 <= b -> (Z.to_nat b < fuel)%nat ->
  gcd_fuel fuel a b = Some (gcd a b).
Proof.
  intros Ha Hb. revert fuel. revert a b Ha Hb.
  apply (gcd_rec_ind (fun a b => forall fuel, (Z.to_nat b < fuel)%nat ->
                                  gcd_fuel fuel a b = Some (gcd a b))).
  - intros a Ha [|fuel] Hf; [lia|]. cbn. now rewrite gcd_base.
  - intros a b Ha Hb IH [|fuel] Hf; [lia|]. cbn [gcd_fuel].
    destruct (Z.eqb_spec b 0); [lia|].
    rewrite rem_nonneg, (gcd_step a b) by lia.
    apply IH. pose proof (Z.mod_pos_bound a b ltac:(lia)). lia.
Qed.

Lemma gcd_call_acc a b : 0 <= a -> 0 <= b -> Acc gcd_call (a, b).
Proof.
  intros Ha Hb. revert a b Ha Hb. apply gcd_rec_ind.
  - intros a Ha. constructor. intros y Hy. inversion Hy. congruence.
  - intros a b Ha Hb IH. constructor. intros y Hy. inversion Hy; subst.
    now rewrite rem_nonneg.
Qed.

Lemma gcd_pos a b : 0 < a -> 0 <= b -> 0 < gcd a b <= a.
Proof.
  intros Ha Hb. rewrite gcd_is_Zgcd by lia.
  pose proof (Z.gcd_nonneg a b) as Hn.
  pose proof (Z.gcd_divide_l a b) as Hd.
  assert (Z.gcd a b <> 0) by (intros H0; apply Z.gcd_eq_0_l in H0; lia).
  split; [lia|]. apply Z.divide_pos_le; [lia|assumption].
Qed.

(** The quotient by the gcd is exact; the product with [b] is the least
    common multiple. *)
Lemma quot_gcd_exact a b :
  0 < a -> 0 < b ->
  Z.quot a (gcd a b) * gcd a b = a /\
  1 <= Z.quot a (gcd a b) <= a /\
  Z.quot a (gcd a b) * b = Z.lcm a b /\
  Z.quot a (gcd a b) * b = Z.quot (a * b) (gcd a b).
Proof.
  intros Ha Hb. pose proof (gcd_pos a b Ha ltac:(lia)) as Hg.
  assert (Hgb : gcd a b = Z.gcd a b) by (apply gcd_is_Zgcd; lia).
  destruct (Z.gcd_divide_l a b) as [a' Ha'].
  destruct (Z.gcd_divide_r a b) as [b' Hb'].
  rewrite <- Hgb in Ha', Hb'. set (g := gcd a b) in *.
  assert (Hq : Z.quot a g = a').
  { rewrite Ha' at 1. apply Z.quot_mul. lia. }
  assert (Ha'pos : 1 <= a') by nia.
  assert (Hb'pos : 1 <= b') by nia.
  rewrite Hq. repeat split; try nia.
  - unfold Z.lcm. fold g in Hgb. rewrite <- Hgb.
    replace (b / g) with b' by (rewrite Hb' at 1; symmetry; apply Z.div_mul; lia).
    rewrite Z.abs_eq by nia. nia.
  - replace (a * b) with (a' * b * g) by nia.
    rewrite Z.quot_mul by lia. reflexivity.
Qed.

Lemma lcm_bounds a b : 0 < a -> 0 < b -> a <= Z.lcm a b /\ b <= Z.lcm a b.
Proof.
  intros Ha Hb.
  destruct (quot_gcd_exact a b Ha Hb) as (He & Hq & Hl & _).
  pose proof (gcd_pos a b Ha ltac:(lia)) as Hg.
  rewrite <- Hl. split; [|nia].
  rewrite <- He at 1.
  assert (gcd a b <= b).
  { rewrite gcd_is_Zgcd by lia. apply Z.divide_pos_le; [lia|apply Z.gcd_divide_r]. }
  nia.
Qed.

Lemma gcd_args_bounded a b :
  0 <= a -> 0 <= b ->
  Forall (fun p => 0 <= fst p <= Z.max a b /\ 0 <= snd p <= Z.max a b)
         (gcd_args a b).
Proof.
  intros Ha Hb. revert a b Ha Hb. apply gcd_rec_ind.
  - intros a Ha. rewrite gcd_args_unfold. cbn. constructor; [cbn; lia|constructor].
  - intros a b Ha Hb IH. rewrite gcd_args_unfold.
    destruct (Z.eqb_spec b 0); [lia|]. rewrite rem_nonneg by lia.
    pose proof (Z.mod_pos_bound a b ltac:(lia)) as Hm.
    constructor; [cbn; lia|].
    eapply Forall_impl; [|exact IH]. cbn. intros p Hp. lia.
Qed.

Lemma lcm_intermediates_bounded a b :
  0 < a -> 0 < b ->
  Forall (fun v => 0 <= v <= Z.lcm a b) (lcm_intermediates a b).
Proof.
  intros Ha Hb. unfold lcm_intermediates.
  destruct (lcm_bounds a b Ha Hb) as [Hla Hlb].
  destruct (quot_gcd_exact a b Ha Hb) as (He & Hq & Hl & _).
  pose proof (gcd_pos a b Ha ltac:(lia)) as Hg.
  apply Forall_app. split.
  - apply Forall_flat_map.
    eapply Forall_impl; [|apply (gcd_args_bounded a b); lia].
    intros p Hp. cbn beta in Hp.
    repeat (apply Forall_cons; [lia|]). apply Forall_nil.
  - repeat (apply Forall_cons; [lia|]). apply Forall_nil.
Qed.

Lemma lcm_exact a b :
  0 < a <= Int64.max_int -> 0 < b <= Int64.max_int ->
  Z.lcm a b <= Int64.max_int -> lcm a b = Z.lcm a b.
Proof.
  intros Ha Hb Hfit.
  destruct (quot_gcd_exact a b ltac:(lia) ltac:(lia)) as (He & Hq & Hl & _).
  unfold lcm, Int64.div, Int64.mul.
  rewrite (Int64Facts.wrap_id (Z.quot a (gcd a b)))
    by (unfold Int64.in_range, Int64.min_int, Int64.max_int in *; lia).
  rewrite Hl. apply Int64Facts.wrap_id.
  pose proof (Z.lcm_nonneg a b).
  unfold Int64.in_range, Int64.min_int, Int64.max_int in *; lia.
Qed.

(** The product of the code's [lcm] and [gcd], taken in [long long]. *)
Lemma lcm_mul_gcd a b :
  0 < a <= Int64.max_int -> 0 < b <= Int64.max_int ->
  Int64.mul (lcm a b) (gcd a b) = Int64.mul a b.
Proof.
  intros Ha Hb.
  destruct (quot_gcd_exact a b ltac:(lia) ltac:(lia)) as (He & Hq & Hl & _).
  unfold lcm, Int64.div.
  rewrite (Int64Facts.wrap_id (Z.quot a (gcd a b)))
    by (unfold Int64.in_range, Int64.min_int, Int64.max_int in *; lia).
  unfold Int64.mul at 2. rewrite Int64Facts.mul_wrap_l.
  unfold Int64.mul. f_equal. nia.
Qed.

Lemma lcm_naive_exact a b :
  0 < a <= Int64.max_int -> 0 < b <= Int64.max_int ->
  a * b <= Int64.max_int -> lcm_naive a b = lcm a b.
Proof.
  intros Ha Hb Hfit.
  destruct (quot_gcd_exact a b ltac:(lia) ltac:(lia)) as (He & Hq & Hl & Hn).
  pose proof (gcd_pos a b ltac:(lia) ltac:(lia)) as Hg.
  assert (Z.lcm a b <= Int64.max_int) by (rewrite <- Hl; nia).
  rewrite lcm_exact by assumption.
  unfold lcm_naive, Int64.mul, Int64.div.
  rewrite (Int64Facts.wrap_id (a * b))
    by (unfold Int64.in_range, Int64.min_int, Int64.max_int in *; nia).
  rewrite <- Hn, Hl. apply Int64Facts.wrap_id.
  pose proof (Z.lcm_nonneg a b).
  unfold Int64.in_range, Int64.min_int, Int64.max_int in *; lia.
Qed.

(** *** The template's numeric functions on concrete arguments *)

Example gcd_48_18 : gcd 48 18 = 6.
Proof. repeat (rewrite gcd_unfold; cbn). reflexivity. Qed.

Example gcd_fuel_48_18 : gcd_fuel 4 48 18 = Some 6 /\ gcd_fuel 3 48 18 = None.
Proof. split; reflexivity. Qed.

Example lcm_4_6 : lcm 4 6 = 12.
Proof. unfold lcm. replace (gcd 4 6) with 2; [reflexivity|].
       repeat (rewrite gcd_unfold; cbn). reflexivity. Qed.

(** Multiplying first overflows where dividing first does not. *)
Example lcm_naive_overflows :
  lcm (2 ^ 32) (2 ^ 32) = 2 ^ 32 /\ lcm_naive (2 ^ 32) (2 ^ 32) = 0.
Proof.
  assert (Hg : gcd (2 ^ 32) (2 ^ 32) = 2 ^ 32).
  { repeat (rewrite gcd_unfold; cbn). reflexivity. }
  unfold lcm, lcm_naive. rewrite Hg. split; reflexivity.
Qed.

(** Where the least common multiple does not fit, the result wraps: the
    64-bit products still agree, the exact ones do not. *)
Example lcm_wraps_on_overflow :
  lcm (2 ^ 62) 3 = - 2 ^ 62 /\
  Int64.mul (lcm (2 ^ 62) 3) (gcd (2 ^ 62) 3) = Int64.mul (2 ^ 62) 3 /\
  lcm (2 ^ 62) 3 * gcd (2 ^ 62) 3 <> 2 ^ 62 * 3.
Proof.
  assert (Hg : gcd (2 ^ 62) 3 = 1).
  { repeat (rewrite gcd_unfold; cbn). reflexivity. }
  unfold lcm. rewrite Hg. repeat split. vm_compute. discriminate.
Qed.

(** *** The claims about [gcd] and [lcm] *)

(** C3: for all non-negative [a] and [b], [gcd] satisfies the Euclidean
    recurrence [gcd a b = gcd b (a mod b)] when [b] is not zero, with the
    base case [gcd a 0 = a]. *)
Theorem gcd_euclidean_recurrence (a b : Z) :
  0 <= a -> 0 <= b ->
  (b <> 0 -> gcd a b = gcd b (a mod b)) /\ gcd a 0 = a.
Proof.
  intros Ha Hb. split.
  - intros Hne. apply gcd_step; lia.
  - apply gcd_base.
Qed.

Lemma gcd_euclidean_recurrence_witness :
  (0 <= 48 /\ 0 <= 18) /\
  ((18 <> 0 -> gcd 48 18 = gcd 18 (48 mod 18)) /\ gcd 48 0 = 48).
Proof.
  split; [lia|]. apply (gcd_euclidean_recurrence 48 18); lia.
Defined.

(** C9: for all non-negative [a] and [b] the recursion of [gcd]
    terminates: the second argument of the recursive call is strictly
    smaller (and stays non-negative) when [b > 0], so the call relation
    is well-founded at [(a, b)], and a call stack of [b + 1] activations
    is enough for the result. *)
Theorem gcd_terminates (a b : Z) :
  0 <= a -> 0 <= b ->
  (0 < b -> 0 <= Int64.rem a b < b) /\
  Acc gcd_call (a, b) /\
  gcd_fuel (S (Z.to_nat b)) a b = Some (gcd a b).
Proof.
  intros Ha Hb. split; [|split].
  - intros Hpos. rewrite rem_nonneg by lia. apply Z.mod_pos_bound. lia.
  - apply gcd_call_acc; assumption.
  - apply gcd_fuel_enough; lia.
Qed.

Lemma gcd_terminates_witness :
  (0 <= 48 /\ 0 <= 18) /\
  ((0 < 18 -> 0 <= Int64.rem 48 18 < 18) /\
   Acc gcd_call (48, 18) /\
   gcd_fuel (S (Z.to_nat 18)) 48 18 = Some (gcd 48 18)).
Proof.
  split; [lia|]. apply (gcd_terminates 48 18); lia.
Defined.

(** C4: for all positive [a] and [b] (values of [long long]),
    [lcm(a,b) * gcd(a,b) == a * b] with [lcm] computed as
    [(a / gcd(a,b)) * b]: both sides agree as 64-bit signed products, and
    the identity is exact over the integers whenever the least common
    multiple fits in 64 bits. *)
Theorem lcm_times_gcd (a b : Z) :
  0 < a <= Int64.max_int -> 0 < b <= Int64.max_int ->
  Int64.mul (lcm a b) (gcd a b) = Int64.mul a b /\
  (Z.lcm a b <= Int64.max_int -> lcm a b * gcd a b = a * b).
Proof.
  intros Ha Hb. split.
  - apply lcm_mul_gcd; assumption.
  - intros Hfit. rewrite lcm_exact by assumption.
    destruct (quot_gcd_exact a b ltac:(lia) ltac:(lia)) as (He & _ & Hl & _).
    rewrite <- Hl. nia.
Qed.

Lemma lcm_times_gcd_witness :
  (0 < 4 <= Int64.max_int /\ 0 < 6 <= Int64.max_int) /\
  (Int64.mul (lcm 4 6) (gcd 4 6) = Int64.mul 4 6 /\
   (Z.lcm 4 6 <= Int64.max_int -> lcm 4 6 * gcd 4 6 = 4 * 6)).
Proof.
  split; [unfold Int64.max_int; lia|].
  apply (lcm_times_gcd 4 6); unfold Int64.max_int; lia.
Defined.

(** C10: for all positive [a] and [b], [lcm] divides before it
    multiplies: every intermediate value lies between 0 and the
    mathematical least common multiple; the result equals the naive
    [(a * b) / gcd(a,b)] in exact arithmetic; and whenever the least
    common multiple fits in 64 bits no intermediate value leaves the
    range of [long long] and the code returns exactly it. *)
Theorem lcm_divides_before_multiplying (a b : Z) :
  0 < a <= Int64.max_int -> 0 < b <= Int64.max_int ->
  Forall (fun v => 0 <= v <= Z.lcm a b) (lcm_intermediates a b) /\
  Z.quot a (gcd a b) * b = Z.quot (a * b) (gcd a b) /\
  (Z.lcm a b <= Int64.max_int ->
   Forall Int64.in_range (lcm_intermediates a b) /\ lcm a b = Z.lcm a b) /\
  (a * b <= Int64.max_int -> lcm_naive a b = lcm a b).
Proof.
  intros Ha Hb.
  pose proof (lcm_intermediates_bounded a b ltac:(lia) ltac:(lia)) as Hall.
  repeat split.
  - exact Hall.
  - apply (quot_gcd_exact a b); lia.
  - eapply Forall_impl; [|exact Hall]. cbn beta. intros v Hv.
    unfold Int64.in_range, Int64.min_int, Int64.max_int in *. lia.
  - apply lcm_exact; assumption.
  - intros Hfit. apply lcm_naive_exact; assumption.
Qed.

Lemma lcm_divides_before_multiplying_witness :
  (0 < 4 <= Int64.max_int /\ 0 < 6 <= Int64.max_int) /\
  (Forall (fun v => 0 <= v <= Z.lcm 4 6) (lcm_intermediates 4 6) /\
   Z.quot 4 (gcd 4 6) * 6 = Z.quot (4 * 6) (gcd 4 6) /\
   (Z.lcm 4 6 <= Int64.max_int ->
    Forall Int64.in_range (lcm_intermediates 4 6) /\ lcm 4 6 = Z.lcm 4 6) /\
   (4 * 6 <= Int64.max_int -> lcm_naive 4 6 = lcm 4 6)).
Proof.
  split; [unfold Int64.max_int; lia|].
  apply (lcm_divides_before_multiplying 4 6); unfold Int64.max_int; lia.
Defined.

(** *** Further properties of [gcd] and [lcm] *)

(** Induction along the recursion of [gcd] on arbitrary arguments. *)
Lemma gcd_rec_ind_signed (P : Z -> Z -> Prop) :
  (forall a, P a 0) ->
  (forall a b, b <> 0 -> P b (Int64.rem a b) -> P a b) ->
  forall a b, P a b.
Proof.
  intros Hbase Hstep a b.
  remember (Z.abs_nat b) as n eqn:Hn. revert a b Hn.
  induction n as [n IH] using lt_wf_ind. intros a b Hn.
  destruct (Z.eq_dec b 0) as [->|Hne]; [apply Hbase|].
  apply Hstep; [assumption|].
  apply (IH (Z.abs_nat (Int64.rem a b))); [|reflexivity].
  unfold Int64.rem. pose proof (Z.rem_bound_abs a b Hne). lia.
Qed.

Lemma gcd_step_signed a b : b <> 0 -> gcd a b = gcd b (Int64.rem a b).
Proof.
  intros Hb. rewrite gcd_unfold. now destruct (Z.eqb_spec b 0).
Qed.

Lemma Zgcd_rem a b : Z.gcd b (Z.rem a b) = Z.gcd a b.
Proof.
  destruct (Z.eq_dec b 0) as [->|Hb].
  - rewrite Z.rem_0_r_ext by reflexivity. apply Z.gcd_comm.
  - rewrite Z.rem_eq by assumption.
    replace (a - b * Z.quot a b) with (a + (- Z.quot a b) * b) by ring.
    rewrite Z.gcd_add_mult_diag_r. apply Z.gcd_comm.
Qed.

Lemma gcd_abs a b : Z.abs (gcd a b) = Z.gcd a b.
Proof.
  revert a b. apply gcd_rec_ind_signed.
  - intros a. now rewrite gcd_base, Z.gcd_0_r.
  - intros a b Hb IH. rewrite gcd_step_signed, IH by assumption.
    apply Zgcd_rem.
Qed.

Lemma gcd_fuel_more n m a b v :
  gcd_fuel n a b = Some v -> (n <= m)%nat -> gcd_fuel m a b = Some v.
Proof.
  revert m a b. induction n as [|n IH]; intros m a b Hrun Hle; [discriminate|].
  destruct m as [|m]; [lia|]. cbn in *.
  destruct (b =? 0); [assumption|]. apply IH; [assumption|lia].
Qed.

(** Two steps of the recursion halve the second argument. *)
Lemma rem_rem_halves b r :
  0 < r < b -> 2 * (b mod r) < b.
Proof.
  intros Hr. pose proof (Z.mod_pos_bound b r ltac:(lia)) as Hm.
  pose proof (Z.div_mod b r ltac:(lia)) as Hd.
  assert (1 <= b / r) by (apply Z.div_le_lower_bound; lia).
  nia.
Qed.

Lemma gcd_fuel_logarithmic a b :
  0 <= a -> 0 <= b ->
  gcd_fuel (2 * Z.to_nat (Z.log2 b) + 3) a b = Some (gcd a b).
Proof.
  intros Ha Hb. revert a Ha.
  remember (Z.to_nat b) as n eqn:Hn. revert b Hb Hn.
  induction n as [n IH] using lt_wf_ind. intros b Hb Hn a Ha.
  destruct (Z.eq_dec b 0) as [->|Hne].
  - cbn. now rewrite gcd_base.
  - replace (2 * Z.to_nat (Z.log2 b) + 3)%nat
      with (S (S (2 * Z.to_nat (Z.log2 b) + 1)))%nat by lia.
    cbn [gcd_fuel]. destruct (Z.eqb_spec b 0); [contradiction|].
    rewrite (gcd_step a b), rem_nonneg by lia.
    pose proof (Z.mod_pos_bound a b ltac:(lia)) as Hr.
    set (r := a mod b) in *.
    destruct (Z.eqb_spec r 0) as [Hr0|Hr0].
    + rewrite Hr0. now rewrite gcd_base.
    + rewrite (gcd_step b r), rem_nonneg by lia.
      pose proof (Z.mod_pos_bound b r ltac:(lia)) as Hr2.
      pose proof (rem_rem_halves b r ltac:(lia)) as Hhalf.
      set (r2 := b mod r) in *.
      apply (gcd_fuel_more (2 * Z.to_nat (Z.log2 r2) + 3)).
      * apply (IH (Z.to_nat r2)); lia.
      * assert (Hlog : Z.log2 r2 + 1 <= Z.log2 b).
        { destruct (Z.eq_dec r2 0) as [->|Hpos].
          - cbn. assert (1 <= Z.log2 b); [|lia].
            change 1 with (Z.log2 2). apply Z.log2_le_mono. lia.
          - replace (Z.log2 r2 + 1) with (Z.log2 (2 * r2))
              by (rewrite Z.log2_double; lia).
            apply Z.log2_le_mono. lia. }
        pose proof (Z.log2_nonneg r2). lia.
Qed.

(** The recursion of [gcd] never leaves the magnitude of its arguments. *)
Lemma gcd_args_magnitude a b :
  Forall (fun p => Z.abs (fst p) <= Z.max (Z.abs a) (Z.abs b) /\
                   Z.abs (snd p) <= Z.max (Z.abs a) (Z.abs b))
         (gcd_args a b).
Proof.
  revert a b. apply gcd_rec_ind_signed.
  - intros a. rewrite gcd_args_unfold. cbn.
    constructor; [cbn; lia|constructor].
  - intros a b Hb IH. rewrite gcd_args_unfold.
    destruct (Z.eqb_spec b 0); [contradiction|].
    constructor; [cbn; lia|].
    eapply Forall_impl; [|exact IH]. cbn beta.
    pose proof (Z.rem_bound_abs a b Hb). unfold Int64.rem in *.
    intros p Hp. lia.
Qed.

Example gcd_negative_result : gcd 4 (-6) = -2 /\ gcd (-4) 6 = 2 /\ gcd 0 0 = 0.
Proof. repeat split; repeat (rewrite gcd_unfold; cbn); reflexivity. Qed.

(** X1: on non-negative arguments [gcd] returns the greatest common
    divisor: a non-negative number that divides both arguments and is
    divided by every common divisor; the order of the arguments does not
    matter. *)
Theorem gcd_greatest_common_divisor (a b : Z) :
  0 <= a -> 0 <= b ->
  0 <= gcd a b /\ (gcd a b | a) /\ (gcd a b | b) /\
  (forall d, (d | a) -> (d | b) -> (d | gcd a b)) /\
  gcd a b = gcd b a.
Proof.
  intros Ha Hb. rewrite (gcd_is_Zgcd a b), (gcd_is_Zgcd b a) by assumption.
  repeat split.
  - apply Z.gcd_nonneg.
  - apply Z.gcd_divide_l.
  - apply Z.gcd_divide_r.
  - intros d. apply Z.gcd_greatest.
  - apply Z.gcd_comm.
Qed.

Lemma gcd_greatest_common_divisor_witness :
  (0 <= 48 /\ 0 <= 18) /\
  (0 <= gcd 48 18 /\ (gcd 48 18 | 48) /\ (gcd 48 18 | 18) /\
   (forall d, (d | 48) -> (d | 18) -> (d | gcd 48 18)) /\
   gcd 48 18 = gcd 18 48).
Proof.
  split; [lia|]. apply (gcd_greatest_common_divisor 48 18); lia.
Defined.

(** X2: on signed arguments other than the least [long long] the result
    of [gcd] may be negative, but its absolute value is the greatest
    common divisor, and every argument of the recursion stays a
    [long long] above the least one, so that each [%] is defined. *)
Theorem gcd_signed_magnitude (a b : Z) :
  Int64.min_int < a <= Int64.max_int ->
  Int64.min_int < b <= Int64.max_int ->
  Z.abs (gcd a b) = Z.gcd a b /\
  Forall (fun p => Int64.min_int < fst p <= Int64.max_int /\
                   Int64.min_int < snd p <= Int64.max_int)
         (gcd_args a b).
Proof.
  intros Ha Hb. split; [apply gcd_abs|].
  eapply Forall_impl; [|apply gcd_args_magnitude]. cbn beta.
  unfold Int64.min_int, Int64.max_int in *. intros p Hp. lia.
Qed.

Lemma gcd_signed_magnitude_witness :
  (Int64.min_int < 4 <= Int64.max_int /\ Int64.min_int < -6 <= Int64.max_int) /\
  (Z.abs (gcd 4 (-6)) = Z.gcd 4 (-6) /\
   Forall (fun p => Int64.min_int < fst p <= Int64.max_int /\
                    Int64.min_int < snd p <= Int64.max_int)
          (gcd_args 4 (-6))).
Proof.
  split; [unfold Int64.min_int, Int64.max_int; lia|].
  apply (gcd_signed_magnitude 4 (-6)); unfold Int64.min_int, Int64.max_int; lia.
Defined.

(** X3: the recursion of [gcd] is logarithmically deep: on non-negative
    arguments [2 * log2 b + 3] activations are enough, which is at most
    127 for a [long long]. *)
Theorem gcd_depth_logarithmic (a b : Z) :
  0 <= a -> 0 <= b <= Int64.max_int ->
  gcd_fuel (2 * Z.to_nat (Z.log2 b) + 3) a b = Some (gcd a b) /\
  (2 * Z.to_nat (Z.log2 b) + 3 <= 127)%nat.
Proof.
  intros Ha Hb. split; [apply gcd_fuel_logarithmic; lia|].
  assert (Z.log2 b < 63); [|pose proof (Z.log2_nonneg b); lia].
  destruct (Z.eq_dec b 0) as [->|Hne]; [cbn; lia|].
  apply Z.log2_lt_pow2; unfold Int64.max_int in *; lia.
Qed.

Lemma gcd_depth_logarithmic_witness :
  (0 <= 48 /\ 0 <= 18 <= Int64.max_int) /\
  (gcd_fuel (2 * Z.to_nat (Z.log2 18) + 3) 48 18 = Some (gcd 48 18) /\
   (2 * Z.to_nat (Z.log2 18) + 3 <= 127)%nat).
Proof.
  split; [unfold Int64.max_int; lia|].
  apply (gcd_depth_logarithmic 48 18); unfold Int64.max_int; lia.
Defined.

(** Whatever the size of the least common multiple, the code returns it
    modulo [2^64]. *)
Lemma lcm_wrapped a b :
  0 < a <= Int64.max_int -> 0 < b <= Int64.max_int ->
  lcm a b = Int64.wrap (Z.lcm a b).
Proof.
  intros Ha Hb.
  destruct (quot_gcd_exact a b ltac:(lia) ltac:(lia)) as (He & Hq & Hl & _).
  unfold lcm, Int64.div, Int64.mul.
  rewrite (Int64Facts.wrap_id (Z.quot a (gcd a b)))
    by (unfold Int64.in_range, Int64.min_int, Int64.max_int in *; lia).
  now rewrite Hl.
Qed.

Example lcm_zero_argument : lcm 12 0 = 0 /\ lcm 0 12 = 0.
Proof.
  assert (H1 : gcd 12 0 = 12) by (repeat (rewrite gcd_unfold; cbn); reflexivity).
  assert (H2 : gcd 0 12 = 12) by (repeat (rewrite gcd_unfold; cbn); reflexivity).
  unfold lcm. rewrite H1, H2. split; reflexivity.
Qed.

(** X4: for positive [a] and [b] whose least common multiple fits in a
    [long long], [lcm] returns a common multiple of both that divides
    every other common multiple, and the order of the arguments does not
    matter. *)
Theorem lcm_least_common_multiple (a b : Z) :
  0 < a <= Int64.max_int -> 0 < b <= Int64.max_int ->
  Z.lcm a b <= Int64.max_int ->
  0 < lcm a b /\ (a | lcm a b) /\ (b | lcm a b) /\
  (forall m, (a | m) -> (b | m) -> (lcm a b | m)) /\
  lcm a b = lcm b a.
Proof.
  intros Ha Hb Hfit.
  rewrite (lcm_exact a b) by assumption.
  rewrite (lcm_exact b a) by (assumption || (rewrite Z.lcm_comm; assumption)).
  pose proof (lcm_bounds a b ltac:(lia) ltac:(lia)).
  repeat split.
  - lia.
  - apply Z.divide_lcm_l.
  - apply Z.divide_lcm_r.
  - intros m. apply Z.lcm_least.
  - apply Z.lcm_comm.
Qed.

Lemma lcm_least_common_multiple_witness :
  (0 < 4 <= Int64.max_int /\ 0 < 6 <= Int64.max_int /\
   Z.lcm 4 6 <= Int64.max_int) /\
  (0 < lcm 4 6 /\ (4 | lcm 4 6) /\ (6 | lcm 4 6) /\
   (forall m, (4 | m) -> (6 | m) -> (lcm 4 6 | m)) /\
   lcm 4 6 = lcm 6 4).
Proof.
  assert (H4 : 0 < 4 <= Int64.max_int) by (unfold Int64.max_int; lia).
  assert (H6 : 0 < 6 <= Int64.max_int) by (unfold Int64.max_int; lia).
  assert (Hl : Z.lcm 4 6 <= Int64.max_int) by (vm_compute; discriminate).
  split; [auto|]. exact (lcm_least_common_multiple 4 6 H4 H6 Hl).
Defined.

(** X5: [lcm] reports no overflow: for positive [a] and [b] the result is
    always the least common multiple modulo [2^64], and it is the least
    common multiple itself exactly when that fits in a [long long]. *)
Theorem lcm_correct_iff_fits (a b : Z) :
  0 < a <= Int64.max_int -> 0 < b <= Int64.max_int ->
  (lcm a b) mod 2 ^ 64 = (Z.lcm a b) mod 2 ^ 64 /\
  (lcm a b = Z.lcm a b <-> Z.lcm a b <= Int64.max_int).
Proof.
  intros Ha Hb. rewrite (lcm_wrapped a b) by assumption. split.
  - apply Int64Facts.wrap_eqm.
  - split.
    + intros Heq. pose proof (Int64Facts.wrap_in_range (Z.lcm a b)) as Hr.
      rewrite Heq in Hr. apply Hr.
    + intros Hfit. apply Int64Facts.wrap_id.
      pose proof (Z.lcm_nonneg a b).
      unfold Int64.in_range, Int64.min_int, Int64.max_int in *. lia.
Qed.

Lemma lcm_correct_iff_fits_witness :
  (0 < 2 ^ 62 <= Int64.max_int /\ 0 < 3 <= Int64.max_int) /\
  ((lcm (2 ^ 62) 3) mod 2 ^ 64 = (Z.lcm (2 ^ 62) 3) mod 2 ^ 64 /\
   (lcm (2 ^ 62) 3 = Z.lcm (2 ^ 62) 3 <-> Z.lcm (2 ^ 62) 3 <= Int64.max_int)).
Proof.
  split; [unfold Int64.max_int; lia|].
  apply (lcm_correct_iff_fits (2 ^ 62) 3); unfold Int64.max_int; lia.
Defined.

(** X6: [lcm] divides by [gcd(a, b)], which on non-negative arguments is
    zero only when both are zero; with exactly one argument zero the
    result is 0. *)
Theorem lcm_zero_arguments (a b : Z) :
  0 <= a <= Int64.max_int -> 0 <= b <= Int64.max_int ->
  (gcd a b = 0 <-> a = 0 /\ b = 0) /\
  ((a = 0 /\ 0 < b) \/ (0 < a /\ b = 0) -> lcm a b = 0).
Proof.
  intros Ha Hb. split.
  - rewrite gcd_is_Zgcd by lia. split.
    + intros H0. split; [eapply Z.gcd_eq_0_l|eapply Z.gcd_eq_0_r]; exact H0.
    + intros [-> ->]. reflexivity.
  - intros [[-> Hpos]|[Hpos ->]]; unfold lcm, Int64.div, Int64.mul.
    + rewrite Z.quot_0_l; [reflexivity|].
      rewrite gcd_is_Zgcd by lia. cbn. lia.
    + rewrite Z.mul_0_r. reflexivity.
Qed.

Lemma lcm_zero_arguments_witness :
  (0 <= 12 <= Int64.max_int /\ 0 <= 0 <= Int64.max_int) /\
  ((gcd 12 0 = 0 <-> 12 = 0 /\ 0 = 0) /\
   ((12 = 0 /\ 0 < 0) \/ (0 < 12 /\ 0 = 0) -> lcm 12 0 = 0)).
Proof.
  split; [unfold Int64.max_int; lia|].
  apply (lcm_zero_arguments 12 0); unfold Int64.max_int; lia.
Defined.

End NumericFacts.

(** ** Facts about the ordered set *)

Module OrderedSetFacts.
Import OrderedSet.

(** *** Strictly increasing lists *)

Lemma sorted_app_iff (l r : list Z) (v : Z) :
  StronglySorted Z.lt (l ++ v :: r) <->
  StronglySorted Z.lt l /\ StronglySorted Z.lt r /\
  Forall (fun x => x < v) l /\ Forall (fun x => v < x) r.
Proof.
  induction l as [|y l IH]; cbn.
  - split.
    + intros H. inversion H; subst. repeat split; auto; constructor.
    + intros (_ & Hr & _ & Hv). constructor; assumption.
  - split.
    + intros H. inversion H as [|? ? Hs Hall]; subst.
      apply IH in Hs. destruct Hs as (Hl & Hr & Hlv & Hvr).
      apply Forall_app in Hall. destruct Hall as [Hyl Hyr].
      inversion Hyr; subst.
      repeat split; auto; constructor; auto.
    + intros (Hl & Hr & Hlv & Hvr).
      inversion Hl; subst. inversion Hlv; subst.
      constructor.
      * apply IH. repeat split; assumption.
      * apply Forall_app. split; [assumption|].
        constructor; [assumption|].
        eapply Forall_impl; [|exact Hvr]. cbn. intros; lia.
Qed.

Lemma ins_list_below (x v : Z) (l r : list Z) :
  Forall (fun y => y < v) l -> x < v ->
  ins_list x (l ++ v :: r) = ins_list x l ++ v :: r.
Proof.
  intros Hl Hx. induction l as [|y l IH]; cbn.
  - destruct (Z.ltb_spec x v); [reflexivity|lia].
  - inversion Hl; subst.
    destruct (Z.ltb_spec x y); [reflexivity|].
    destruct (Z.ltb_spec y x); [|reflexivity].
    cbn. now rewrite IH.
Qed.

Lemma ins_list_above (x v : Z) (l r : list Z) :
  Forall (fun y => y < v) l -> v < x ->
  ins_list x (l ++ v :: r) = l ++ v :: ins_list x r.
Proof.
  intros Hl Hx. induction l as [|y l IH]; cbn.
  - destruct (Z.ltb_spec x v); [lia|].
    destruct (Z.ltb_spec v x); [reflexivity|lia].
  - inversion Hl; subst.
    destruct (Z.ltb_spec x y); [lia|].
    destruct (Z.ltb_spec y x); [|lia].
    now rewrite IH.
Qed.

Lemma ins_list_at (v : Z) (l r : list Z) :
  Forall (fun y => y < v) l ->
  ins_list v (l ++ v :: r) = l ++ v :: r.
Proof.
  intros Hl. induction l as [|y l IH]; cbn.
  - now rewrite Z.ltb_irrefl.
  - inversion Hl; subst.
    destruct (Z.ltb_spec v y); [lia|].
    destruct (Z.ltb_spec y v); [|lia].
    now rewrite IH.
Qed.

Lemma ins_list_In (x y : Z) (l : list Z) :
  In y (ins_list x l) <-> y = x \/ In y l.
Proof.
  induction l as [|z l IH]; cbn.
  - intuition.
  - destruct (Z.ltb_spec x z); [cbn; intuition|].
    destruct (Z.ltb_spec z x); cbn.
    + rewrite IH. intuition.
    + assert (x = z) by lia. subst. intuition.
Qed.

Lemma ins_list_sorted (x : Z) (l : list Z) :
  StronglySorted Z.lt l -> StronglySorted Z.lt (ins_list x l).
Proof.
  induction l as [|z l IH]; cbn; intros Hs.
  - repeat constructor.
  - inversion Hs as [|? ? Hl Hz]; subst.
    destruct (Z.ltb_spec x z).
    + constructor; [assumption|]. constructor; [assumption|].
      eapply Forall_impl; [|exact Hz]. cbn. intros; lia.
    + destruct (Z.ltb_spec z x); [|assumption].
      constructor; [auto|].
      apply Forall_forall. intros y Hy. apply ins_list_In in Hy.
      destruct Hy as [->|Hy]; [assumption|].
      rewrite Forall_forall in Hz. auto.
Qed.

Lemma ins_list_present (x : Z) (l : list Z) :
  StronglySorted Z.lt l -> In x l -> ins_list x l = l.
Proof.
  induction l as [|z l IH]; cbn; intros Hs Hin; [contradiction|].
  inversion Hs as [|? ? Hl Hz]; subst.
  rewrite Forall_forall in Hz.
  destruct Hin as [->|Hin].
  - now rewrite Z.ltb_irrefl.
  - specialize (Hz _ Hin).
    destruct (Z.ltb_spec x z); [lia|].
    destruct (Z.ltb_spec z x); [|reflexivity].
    now rewrite IH.
Qed.

Lemma ins_list_fresh (x : Z) (l : list Z) :
  ~ In x l -> Permutation (ins_list x l) (x :: l).
Proof.
  induction l as [|z l IH]; cbn; intros Hnin; [reflexivity|].
  destruct (Z.ltb_spec x z); [reflexivity|].
  destruct (Z.ltb_spec z x).
  - rewrite IH by tauto. apply perm_swap.
  - exfalso. apply Hnin. left. lia.
Qed.

Lemma sorted_NoDup (l : list Z) : StronglySorted Z.lt l -> NoDup l.
Proof.
  induction 1 as [|x l Hs IH Hx]; constructor; [|assumption].
  intros Hin. rewrite Forall_forall in Hx. specialize (Hx _ Hin). lia.
Qed.

Lemma count_less_app (e : Z) (l r : list Z) :
  count_less e (l ++ r) = (count_less e l + count_less e r)%nat.
Proof. unfold count_less. now rewrite filter_app, length_app. Qed.

Lemma count_less_all (e : Z) (l : list Z) :
  Forall (fun x => x < e) l -> count_less e l = List.length l.
Proof.
  unfold count_less. induction 1 as [|x l Hx _ IH]; cbn; [reflexivity|].
  destruct (Z.ltb_spec x e); [cbn; now rewrite IH|lia].
Qed.

Lemma count_less_none (e : Z) (l : list Z) :
  Forall (fun x => e <= x) l -> count_less e l = 0%nat.
Proof.
  unfold count_less. induction 1 as [|x l Hx _ IH]; cbn; [reflexivity|].
  destruct (Z.ltb_spec x e); [lia|assumption].
Qed.

Lemma count_less_perm (e : Z) (l l' : list Z) :
  Permutation l l' -> count_less e l = count_less e l'.
Proof.
  unfold count_less. induction 1; cbn.
  - reflexivity.
  - destruct (x <? e); cbn; congruence.
  - destruct (x <? e), (y <? e); reflexivity.
  - congruence.
Qed.

(** *** Rebalancing keeps the iteration order and the annotations *)

Lemma size_elements (t : tree) : size t = List.length (elements t).
Proof.
  induction t as [|c l IHl v m r IHr]; cbn; [reflexivity|].
  rewrite length_app. cbn. lia.
Qed.

Lemma metadata_size (t : tree) : annotated t -> metadata t = size t.
Proof. destruct t; cbn; [reflexivity|tauto]. Qed.

Lemma elements_paint_black (t : tree) : elements (paint_black t) = elements t.
Proof. destruct t; reflexivity. Qed.

Lemma annotated_paint_black (t : tree) : annotated t -> annotated (paint_black t).
Proof. destruct t; cbn; tauto. Qed.

Lemma annotated_update c l v r :
  annotated l -> annotated r -> annotated (update c l v r).
Proof.
  intros Hl Hr. cbn. rewrite !metadata_size by assumption.
  repeat split; (assumption || lia).
Qed.

Ltac list_assoc :=
  cbn; rewrite ?elements_paint_black;
  repeat (rewrite <- app_assoc; cbn); reflexivity.

Lemma elements_fixup_left c l v r :
  elements (fixup_left c l v r) = elements l ++ v :: elements r.
Proof.
  unfold fixup_left.
  destruct l as [|[] [|[] ? ? ? ?] ? ? [|[] ? ? ? ?]]; try reflexivity;
    destruct (is_red r); list_assoc.
Qed.

Lemma elements_fixup_right c l v r :
  elements (fixup_right c l v r) = elements l ++ v :: elements r.
Proof.
  unfold fixup_right.
  destruct r as [|[] [|[] ? ? ? ?] ? ? [|[] ? ? ? ?]]; try reflexivity;
    destruct (is_red l); list_assoc.
Qed.

Ltac annot :=
  repeat (apply annotated_update || apply annotated_paint_black);
  cbn in *; tauto.

Lemma annotated_fixup_left c l v r :
  annotated l -> annotated r -> annotated (fixup_left c l v r).
Proof.
  intros Hl Hr. unfold fixup_left.
  destruct l as [|[] [|[] ? ? ? ?] ? ? [|[] ? ? ? ?]];
    try destruct (is_red r); annot.
Qed.

Lemma annotated_fixup_right c l v r :
  annotated l -> annotated r -> annotated (fixup_right c l v r).
Proof.
  intros Hl Hr. unfold fixup_right.
  destruct r as [|[] [|[] ? ? ? ?] ? ? [|[] ? ? ? ?]];
    try destruct (is_red l); annot.
Qed.

(** *** Insertion *)

Lemma ins_stale x t : snd (ins x t) = false -> fst (ins x t) = t.
Proof.
  induction t as [|c l IHl v m r IHr]; cbn; [discriminate|].
  destruct (x <? v).
  - destruct (ins x l) as [l' []]; cbn; [discriminate|reflexivity].
  - destruct (v <? x); [|reflexivity].
    destruct (ins x r) as [r' []]; cbn; [discriminate|reflexivity].
Qed.

Lemma annotated_ins x t : annotated t -> annotated (fst (ins x t)).
Proof.
  induction t as [|c l IHl v m r IHr]; intros Ht.
  - cbn. auto.
  - pose proof Ht as Ht'. cbn in Ht. destruct Ht as (Hm & Hl & Hr).
    cbn [ins]. destruct (x <? v).
    + specialize (IHl Hl). destruct (ins x l) as [l' []]; cbn in *.
      * apply annotated_fixup_left; assumption.
      * tauto.
    + destruct (v <? x); [|exact Ht'].
      specialize (IHr Hr). destruct (ins x r) as [r' []]; cbn in *.
      * apply annotated_fixup_right; assumption.
      * tauto.
Qed.

Lemma elements_ins x t :
  ordered t -> elements (fst (ins x t)) = ins_list x (elements t).
Proof.
  unfold ordered.
  induction t as [|c l IHl v m r IHr]; intros Ht; [reflexivity|].
  cbn in Ht. apply sorted_app_iff in Ht. destruct Ht as (Hl & Hr & Hlv & Hvr).
  cbn [ins elements].
  destruct (Z.ltb_spec x v) as [Hlt|Hge].
  - rewrite ins_list_below by assumption. rewrite <- IHl by assumption.
    pose proof (ins_stale x l) as Hst.
    destruct (ins x l) as [l' []]; cbn in *.
    + apply elements_fixup_left.
    + now rewrite Hst.
  - destruct (Z.ltb_spec v x) as [Hgt|Hle].
    + rewrite ins_list_above by assumption. rewrite <- IHr by assumption.
      pose proof (ins_stale x r) as Hst.
      destruct (ins x r) as [r' []]; cbn in *.
      * apply elements_fixup_right.
      * now rewrite Hst.
    + assert (x = v) by lia. subst x.
      now rewrite ins_list_at.
Qed.

(** [ins] reports a new element exactly when the key was absent. *)
Lemma ins_fresh_iff x t :
  ordered t -> (snd (ins x t) = true <-> ~ In x (elements t)).
Proof.
  unfold ordered.
  induction t as [|c l IHl v m r IHr]; intros Ht; [cbn; tauto|].
  cbn in Ht. apply sorted_app_iff in Ht. destruct Ht as (Hl & Hr & Hlv & Hvr).
  rewrite Forall_forall in Hlv, Hvr.
  cbn [ins elements]. rewrite in_app_iff. cbn [In].
  destruct (Z.ltb_spec x v) as [Hlt|Hge].
  - specialize (IHl Hl). destruct (ins x l) as [l' fresh]; cbn in *.
    rewrite IHl. split; [|tauto].
    intros Hn [H|[H|H]]; [tauto|lia|]. specialize (Hvr _ H). lia.
  - destruct (Z.ltb_spec v x) as [Hgt|Hle].
    + specialize (IHr Hr). destruct (ins x r) as [r' fresh]; cbn in *.
      rewrite IHr. split; [|tauto].
      intros Hn [H|[H|H]]; [|lia|tauto]. specialize (Hlv _ H). lia.
    + cbn. split; [discriminate|]. intros Hn. exfalso. apply Hn. right. left. lia.
Qed.

Lemma insert_fst x t : fst (insert x t) = paint_black (fst (ins x t)).
Proof. unfold insert. now destruct (ins x t). Qed.

Lemma insert_snd x t : snd (insert x t) = snd (ins x t).
Proof. unfold insert. now destruct (ins x t). Qed.

Lemma elements_insert x t :
  ordered t -> elements (fst (insert x t)) = ins_list x (elements t).
Proof.
  intros Ht. rewrite insert_fst, elements_paint_black. now apply elements_ins.
Qed.

Lemma ordered_insert x t : ordered t -> ordered (fst (insert x t)).
Proof.
  intros Ht. unfold ordered. rewrite elements_insert by assumption.
  now apply ins_list_sorted.
Qed.

Lemma annotated_insert x t : annotated t -> annotated (fst (insert x t)).
Proof.
  intros Ht. rewrite insert_fst. now apply annotated_paint_black, annotated_ins.
Qed.

(** The invariants of the container after any sequence of insertions. *)
Lemma insert_all_invariant es t :
  ordered t -> annotated t ->
  ordered (insert_all es t) /\ annotated (insert_all es t) /\
  elements (insert_all es t) =
    fold_left (fun l e => ins_list e l) es (elements t).
Proof.
  revert t. induction es as [|e es IH]; intros t Ho Ha; cbn.
  - auto.
  - destruct (IH (fst (insert e t))) as (Ho' & Ha' & He').
    + now apply ordered_insert.
    + now apply annotated_insert.
    + unfold insert_all in *. repeat split; try assumption.
      rewrite He', elements_insert by assumption. reflexivity.
Qed.

Lemma fold_ins_list_In es l y :
  In y (fold_left (fun l e => ins_list e l) es l) <-> In y es \/ In y l.
Proof.
  revert l. induction es as [|e es IH]; intros l; cbn; [tauto|].
  rewrite IH, ins_list_In. intuition.
Qed.

Lemma elements_insert_all_In es t y :
  ordered t -> annotated t ->
  (In y (elements (insert_all es t)) <-> In y es \/ In y (elements t)).
Proof.
  intros Ho Ha. destruct (insert_all_invariant es t Ho Ha) as (_ & _ & ->).
  apply fold_ins_list_In.
Qed.

Lemma ordered_empty : ordered empty.
Proof. constructor. Qed.

Lemma annotated_empty : annotated empty.
Proof. exact I. Qed.

(** The set built from [e1..en] holds each distinct value once. *)
Lemma elements_insert_all_perm es :
  Permutation (elements (insert_all es empty)) (nodup Z.eq_dec es).
Proof.
  destruct (insert_all_invariant es empty ordered_empty annotated_empty)
    as (Ho & _ & _).
  apply NoDup_Permutation.
  - now apply sorted_NoDup.
  - apply NoDup_nodup.
  - intros y. rewrite nodup_In.
    rewrite elements_insert_all_In by (apply ordered_empty || apply annotated_empty).
    cbn. tauto.
Qed.

(** The elements whose insertion was reported as new are the elements
    the set gained. *)
Lemma inserted_from_perm es t :
  ordered t ->
  Permutation (elements (insert_all es t)) (inserted_from es t ++ elements t).
Proof.
  revert t. induction es as [|e es IH]; intros t Ho; cbn; [reflexivity|].
  pose proof (ordered_insert e t Ho) as Ho'.
  pose proof (elements_insert e t Ho) as He.
  pose proof (ins_fresh_iff e t Ho) as Hf. rewrite <- insert_snd in Hf.
  specialize (IH (fst (insert e t)) Ho'). unfold insert_all in *.
  destruct (insert e t) as [t' fresh]; cbn in *.
  rewrite IH, He. destruct fresh.
  - cbn. rewrite ins_list_fresh by (apply Hf; reflexivity).
    symmetry. apply Permutation_middle.
  - rewrite ins_list_present; [reflexivity|exact Ho|].
    destruct (in_dec Z.eq_dec e (elements t)); [assumption|].
    apply Hf in n. discriminate.
Qed.

(** *** Insertion keeps the tree balanced *)

Lemma red_black_nearly t n : red_black t n -> nearly_red_black t n.
Proof.
  intros H. destruct H; cbn; [constructor|tauto|now constructor].
Qed.

Lemma red_black_paint_black t n :
  nearly_red_black t n -> exists n', red_black (paint_black t) n'.
Proof.
  destruct t as [|[] l v m r]; cbn.
  - intros H. exists n. exact H.
  - intros (Hl & Hr & _). exists (S n). now constructor.
  - intros H. exists n. exact H.
Qed.

Lemma red_black_paint_red_child t n :
  red_black t n -> is_red t = true -> red_black (paint_black t) (S n).
Proof.
  intros H Hred. destruct H; cbn in *; try discriminate. now constructor.
Qed.

Lemma is_red_paint_black t : is_red (paint_black t) = false.
Proof. now destruct t. Qed.

Ltac invert_red_black :=
  repeat match goal with
         | H : red_black (Node _ _ _ _ _) _ |- _ => inversion H; subst; clear H
         | H : red_black Leaf _ |- _ => inversion H; subst; clear H
         | H : _ /\ _ |- _ => destruct H
         end.

Ltac build_red_black :=
  repeat (apply rb_red || apply rb_black || apply rb_leaf
          || eapply red_black_paint_red_child || split);
  cbn in *; (assumption || reflexivity || discriminate
             || apply is_red_paint_black || (left; reflexivity)
             || (right; reflexivity) || auto).

(** Repairing above a left subtree that came back from an insertion. *)
Lemma red_black_fixup_left l v r n :
  nearly_red_black l n -> red_black r n ->
  red_black (fixup_left Black l v r) (S n).
Proof.
  intros Hl Hr. unfold fixup_left, update.
  destruct l as [|[] [|[] ? ? ? ?] ? ? [|[] ? ? ? ?]]; cbn in Hl;
    try destruct (is_red r) eqn:Hred;
    invert_red_black;
    try match goal with H : _ \/ _ |- _ => destruct H; try discriminate end;
    build_red_black.
Qed.

Lemma red_black_fixup_right l v r n :
  red_black l n -> nearly_red_black r n ->
  red_black (fixup_right Black l v r) (S n).
Proof.
  intros Hl Hr. unfold fixup_right, update.
  destruct r as [|[] [|[] ? ? ? ?] ? ? [|[] ? ? ? ?]]; cbn in Hr;
    try destruct (is_red l) eqn:Hred;
    invert_red_black;
    try match goal with H : _ \/ _ |- _ => destruct H; try discriminate end;
    build_red_black.
Qed.

(** A balanced subtree needs no repair. *)
Lemma fixup_left_balanced c l v r n :
  red_black l n -> fixup_left c l v r = update c l v r.
Proof.
  intros Hl. unfold fixup_left.
  destruct l as [|[] [|[] ? ? ? ?] ? ? [|[] ? ? ? ?]]; try reflexivity;
    inversion Hl; subst; cbn in *; discriminate.
Qed.

Lemma fixup_right_balanced c l v r n :
  red_black r n -> fixup_right c l v r = update c l v r.
Proof.
  intros Hr. unfold fixup_right.
  destruct r as [|[] [|[] ? ? ? ?] ? ? [|[] ? ? ? ?]]; try reflexivity;
    inversion Hr; subst; cbn in *; discriminate.
Qed.

Lemma red_black_ins x t n :
  red_black t n ->
  nearly_red_black (fst (ins x t)) n /\
  (is_red t = false -> red_black (fst (ins x t)) n).
Proof.
  induction 1 as [|l v m r n Hlc Hrc Hl IHl Hr IHr|l v m r n Hl IHl Hr IHr].
  - cbn. repeat split; auto; constructor; auto; constructor.
  - split; [|cbn; discriminate].
    cbn [ins]. destruct (x <? v).
    + destruct IHl as [_ IHl]. specialize (IHl Hlc).
      destruct (ins x l) as [l' []]; cbn [fst] in *.
      * rewrite (fixup_left_balanced _ _ _ _ _ IHl). cbn. auto.
      * cbn. auto.
    + destruct (v <? x); [|cbn; auto].
      destruct IHr as [_ IHr]. specialize (IHr Hrc).
      destruct (ins x r) as [r' []]; cbn [fst] in *.
      * rewrite (fixup_right_balanced _ _ _ _ _ IHr). cbn. auto.
      * cbn. auto.
  - assert (Hgoal : red_black (fst (ins x (Node Black l v m r))) (S n)).
    { cbn [ins]. destruct (x <? v).
      - destruct IHl as [IHl _].
        destruct (ins x l) as [l' []]; cbn [fst] in *.
        + now apply red_black_fixup_left.
        + now constructor.
      - destruct (v <? x); [|now constructor].
        destruct IHr as [IHr _].
        destruct (ins x r) as [r' []]; cbn [fst] in *.
        + now apply red_black_fixup_right.
        + now constructor. }
    split; [now apply red_black_nearly|auto].
Qed.

Lemma red_black_insert x t n :
  red_black t n -> exists n', red_black (fst (insert x t)) n'.
Proof.
  intros H. rewrite insert_fst.
  apply (red_black_paint_black _ n). now apply red_black_ins.
Qed.

(** Every set built by insertions is a red-black tree. *)
Lemma red_black_insert_all es t n :
  red_black t n -> exists n', red_black (insert_all es t) n'.
Proof.
  revert t n. induction es as [|e es IH]; intros t n Ht; cbn.
  - now exists n.
  - destruct (red_black_insert e t n Ht) as [n' Hn']. now apply (IH _ n').
Qed.

(** A red-black tree is no higher than twice its black height, plus one
    for a red root, and holds at least [2 ^ n - 1] elements: the queries
    take a number of steps logarithmic in the size. *)
Lemma red_black_height t n :
  red_black t n ->
  (height t <= 2 * n + (if is_red t then 1 else 0))%nat /\
  (2 ^ n <= size t + 1)%nat.
Proof.
  induction 1 as [|l v m r n Hlc Hrc Hl IHl Hr IHr|l v m r n Hl IHl Hr IHr];
    cbn [height size is_red].
  - cbn. lia.
  - rewrite Hlc, Hrc in *. lia.
  - rewrite Nat.pow_succ_r'. destruct (is_red l), (is_red r); lia.
Qed.

(** *** The two queries, read off the iteration order *)

Lemma order_of_key_from_spec ord t key :
  annotated t -> ordered t ->
  order_of_key_from ord t key = (ord + count_less key (elements t))%nat.
Proof.
  unfold ordered. revert ord.
  induction t as [|c l IHl v m r IHr]; intros ord Ha Ho.
  - cbn. unfold count_less. cbn. lia.
  - cbn in Ha. destruct Ha as (Hm & Hal & Har).
    cbn in Ho. apply sorted_app_iff in Ho. destruct Ho as (Hl & Hr & Hlv & Hvr).
    cbn [order_of_key_from elements].
    rewrite count_less_app.
    change (v :: elements r) with ([v] ++ elements r). rewrite count_less_app.
    rewrite metadata_size, size_elements by assumption.
    destruct (Z.ltb_spec key v) as [Hlt|Hge].
    + rewrite IHl by assumption.
      rewrite (count_less_none key [v]) by (repeat constructor; lia).
      rewrite (count_less_none key (elements r)).
      * lia.
      * eapply Forall_impl; [|exact Hvr]. cbn. intros; lia.
    + destruct (Z.ltb_spec v key) as [Hgt|Hle].
      * rewrite IHr by assumption.
        rewrite (count_less_all key (elements l)).
        -- rewrite (count_less_all key [v]) by (repeat constructor; lia).
           cbn. lia.
        -- eapply Forall_impl; [|exact Hlv]. cbn. intros; lia.
      * assert (key = v) by lia. subst key.
        rewrite (count_less_all v (elements l)) by assumption.
        rewrite (count_less_none v [v]) by (repeat constructor; lia).
        rewrite (count_less_none v (elements r)).
        -- lia.
        -- eapply Forall_impl; [|exact Hvr]. cbn. intros; lia.
Qed.

Lemma order_of_key_spec t key :
  annotated t -> ordered t ->
  order_of_key t key = count_less key (elements t).
Proof. intros. unfold order_of_key. now rewrite order_of_key_from_spec. Qed.

Lemma find_by_order_spec t k :
  annotated t -> find_by_order t k = nth_error (elements t) k.
Proof.
  revert k. induction t as [|c l IHl v m r IHr]; intros k Ha.
  - cbn. now destruct k.
  - cbn in Ha. destruct Ha as (Hm & Hal & Har).
    cbn [find_by_order elements].
    rewrite metadata_size, size_elements by assumption.
    destruct (Nat.eqb_spec k (List.length (elements l))) as [->|Hne].
    + rewrite nth_error_app2 by lia. now rewrite Nat.sub_diag.
    + destruct (Nat.ltb_spec k (List.length (elements l))) as [Hlt|Hge].
      * rewrite nth_error_app1 by assumption. now apply IHl.
      * rewrite nth_error_app2 by lia. rewrite IHr by assumption.
        replace (k - List.length (elements l))%nat
          with (S (k - (List.length (elements l) + 1)))%nat by lia.
        reflexivity.
Qed.

Lemma count_less_split (v : Z) (l r : list Z) :
  StronglySorted Z.lt (l ++ v :: r) ->
  count_less v (l ++ v :: r) = List.length l.
Proof.
  intros Hs. apply sorted_app_iff in Hs. destruct Hs as (_ & _ & Hlv & Hvr).
  rewrite count_less_app. change (v :: r) with ([v] ++ r).
  rewrite count_less_app, (count_less_all v l) by assumption.
  rewrite (count_less_none v [v]) by (repeat constructor; lia).
  rewrite (count_less_none v r); [lia|].
  eapply Forall_impl; [|exact Hvr]. cbn. intros; lia.
Qed.

Lemma sorted_nth_count (L : list Z) (k : nat) (v : Z) :
  StronglySorted Z.lt L -> nth_error L k = Some v -> count_less v L = k.
Proof.
  intros Hs Hn. apply nth_error_split in Hn.
  destruct Hn as (l & r & -> & <-). now apply count_less_split.
Qed.

Lemma sorted_count_nth (L : list Z) (e : Z) :
  StronglySorted Z.lt L -> In e L -> nth_error L (count_less e L) = Some e.
Proof.
  intros Hs Hin. apply in_split in Hin. destruct Hin as (l & r & ->).
  rewrite count_less_split by assumption.
  rewrite nth_error_app2 by lia. now rewrite Nat.sub_diag.
Qed.

Lemma size_insert_all es :
  size (insert_all es empty) = List.length (nodup Z.eq_dec es).
Proof.
  rewrite size_elements. apply Permutation_length, elements_insert_all_perm.
Qed.

(** *** The container on concrete elements *)

Example insert_5_3_5_8 :
  elements (insert_all [5; 3; 5; 8] empty) = [3; 5; 8] /\
  inserted_from [5; 3; 5; 8] empty = [5; 3; 8] /\
  order_of_key (insert_all [5; 3; 5; 8] empty) 8 = 2%nat /\
  find_by_order (insert_all [5; 3; 5; 8] empty) 1 = Some 5 /\
  find_by_order (insert_all [5; 3; 5; 8] empty) 3 = None.
Proof. repeat split; reflexivity. Qed.

(** A value inserted twice is held once: ranks count distinct values. *)
Example rank_counts_distinct :
  order_of_key (insert_all [1; 1; 2] empty) 2 = 1%nat /\
  count_less 2 [1; 1; 2] = 2%nat /\
  snd (insert 1 (fst (insert 1 empty))) = false.
Proof. repeat split; reflexivity. Qed.

(** Ascending insertions: recolourings and left rotations keep the tree
    balanced, and every annotation is the size of its subtree. *)
Example insert_ascending :
  insert_all [1; 2; 3; 4; 5; 6; 7] empty =
    Node Black
      (Node Black Leaf 1 1 Leaf)
      2 7
      (Node Red
         (Node Black Leaf 3 1 Leaf)
         4 5
         (Node Black (Node Red Leaf 5 1 Leaf) 6 3 (Node Red Leaf 7 1 Leaf))).
Proof. reflexivity. Qed.

(** *** The claims about the ordered set *)

(** C1: after inserting [e1..en] into an empty [ordered_set],
    [order_of_key(ei)] of every inserted [ei] is the number of inserted
    elements strictly less than [ei]: of the elements whose insertion
    took place, which are the distinct values of the sequence, and of the
    sequence itself when it repeats no value. *)
Theorem order_of_key_counts_smaller (es : list Z) (e : Z) :
  In e es ->
  order_of_key (insert_all es empty) e = count_less e (inserted_from es empty) /\
  order_of_key (insert_all es empty) e = count_less e (nodup Z.eq_dec es) /\
  (NoDup es -> order_of_key (insert_all es empty) e = count_less e es).
Proof.
  intros _.
  destruct (insert_all_invariant es empty ordered_empty annotated_empty)
    as (Ho & Ha & _).
  rewrite order_of_key_spec by assumption.
  assert (Hd : count_less e (elements (insert_all es empty))
               = count_less e (nodup Z.eq_dec es))
    by apply count_less_perm, elements_insert_all_perm.
  repeat split.
  - apply count_less_perm.
    rewrite (inserted_from_perm es empty ordered_empty). cbn.
    now rewrite app_nil_r.
  - exact Hd.
  - intros Hnd. rewrite Hd. now rewrite nodup_fixed_point.
Qed.

Lemma order_of_key_counts_smaller_witness :
  In 8 [5; 3; 5; 8] /\
  (order_of_key (insert_all [5; 3; 5; 8] empty) 8
     = count_less 8 (inserted_from [5; 3; 5; 8] empty) /\
   order_of_key (insert_all [5; 3; 5; 8] empty) 8
     = count_less 8 (nodup Z.eq_dec [5; 3; 5; 8]) /\
   (NoDup [5; 3; 5; 8] ->
    order_of_key (insert_all [5; 3; 5; 8] empty) 8 = count_less 8 [5; 3; 5; 8])).
Proof.
  assert (Hin : In 8 [5; 3; 5; 8]) by (simpl; tauto).
  split; [exact Hin|]. exact (order_of_key_counts_smaller [5; 3; 5; 8] 8 Hin).
Defined.

(** C2: for every valid index [k] (below the size of the set),
    [find_by_order(k)] is the [(k+1)]-th smallest distinct inserted
    value: an inserted value with exactly [k] distinct inserted values
    below it; and the two queries are inverse to each other on the
    elements of the set: [find_by_order(order_of_key(e))] is [e] for
    every inserted [e], and [order_of_key] of the value found at [k] is
    [k]. *)
Theorem find_by_order_selects (es : list Z) (k : nat) (e : Z) :
  (k < size (insert_all es empty))%nat ->
  In e es ->
  (exists v,
      find_by_order (insert_all es empty) k = Some v /\
      In v es /\
      count_less v (nodup Z.eq_dec es) = k /\
      order_of_key (insert_all es empty) v = k) /\
  find_by_order (insert_all es empty) (order_of_key (insert_all es empty) e)
    = Some e.
Proof.
  intros Hk He.
  destruct (insert_all_invariant es empty ordered_empty annotated_empty)
    as (Ho & Ha & _).
  split.
  - rewrite size_elements in Hk.
    destruct (nth_error (elements (insert_all es empty)) k) as [v|] eqn:Hn.
    + exists v. rewrite find_by_order_spec by assumption.
      pose proof (sorted_nth_count _ _ _ Ho Hn) as Hc.
      repeat split.
      * exact Hn.
      * apply nth_error_In in Hn.
        apply elements_insert_all_In in Hn;
          [cbn in Hn; tauto|apply ordered_empty|apply annotated_empty].
      * rewrite <- Hc. symmetry.
        apply count_less_perm, elements_insert_all_perm.
      * now rewrite order_of_key_spec.
    + apply nth_error_None in Hn. lia.
  - rewrite find_by_order_spec, order_of_key_spec by assumption.
    apply sorted_count_nth; [exact Ho|].
    apply elements_insert_all_In;
      [apply ordered_empty|apply annotated_empty|now left].
Qed.

Lemma find_by_order_selects_witness :
  ((1 < size (insert_all [5; 3; 5; 8]%Z empty))%nat /\ In 8 [5; 3; 5; 8]) /\
  ((exists v,
       find_by_order (insert_all [5; 3; 5; 8] empty) 1 = Some v /\
       In v [5; 3; 5; 8] /\
       count_less v (nodup Z.eq_dec [5; 3; 5; 8]) = 1%nat /\
       order_of_key (insert_all [5; 3; 5; 8] empty) v = 1%nat) /\
   find_by_order (insert_all [5; 3; 5; 8] empty)
                 (order_of_key (insert_all [5; 3; 5; 8] empty) 8) = Some 8).
Proof.
  assert (Hk : (1 < size (insert_all [5; 3; 5; 8]%Z empty))%nat)
    by (vm_compute; lia).
  assert (Hin : In 8 [5; 3; 5; 8]) by (simpl; tauto).
  split; [split; assumption|].
  exact (find_by_order_selects [5; 3; 5; 8] 1 8 Hk Hin).
Defined.

(** *** Further properties of the ordered set *)

Lemma sorted_unique (l1 l2 : list Z) :
  StronglySorted Z.lt l1 -> StronglySorted Z.lt l2 ->
  (forall x, In x l1 <-> In x l2) -> l1 = l2.
Proof.
  intros H1. revert l2.
  induction H1 as [|x l1 Hs1 IH Hx]; intros l2 H2 Hsame.
  - destruct l2 as [|y l2]; [reflexivity|].
    exfalso. apply (proj2 (Hsame y)). now left.
  - destruct H2 as [|y l2 Hs2 Hy].
    + exfalso. apply (proj1 (Hsame x)). now left.
    + rewrite Forall_forall in Hx, Hy.
      assert (Hxy : x = y).
      { destruct (proj1 (Hsame x) ltac:(now left)) as [Heq|Hin]; [auto|].
        destruct (proj2 (Hsame y) ltac:(now left)) as [Heq|Hin']; [auto|].
        specialize (Hx _ Hin'). specialize (Hy _ Hin). lia. }
      subst y. f_equal. apply IH; [assumption|].
      intros z. split; intros Hz.
      * destruct (proj1 (Hsame z) ltac:(now right)) as [Heq|Hin]; [|assumption].
        specialize (Hx _ Hz). lia.
      * destruct (proj2 (Hsame z) ltac:(now right)) as [Heq|Hin]; [|assumption].
        specialize (Hy _ Hz). lia.
Qed.

Lemma count_less_le_length e l : (count_less e l <= List.length l)%nat.
Proof. unfold count_less. apply filter_length_le. Qed.

Lemma count_less_mono e1 e2 l :
  e1 <= e2 -> (count_less e1 l <= count_less e2 l)%nat.
Proof.
  intros Hle. unfold count_less. induction l as [|x l IH]; cbn; [lia|].
  destruct (Z.ltb_spec x e1), (Z.ltb_spec x e2); cbn; lia.
Qed.

Lemma sorted_nth_increasing (L : list Z) (i j : nat) (x y : Z) :
  StronglySorted Z.lt L -> (i < j)%nat ->
  nth_error L i = Some x -> nth_error L j = Some y -> x < y.
Proof.
  intros Hs. revert i j. induction Hs as [|z L Hs IH Hz]; intros i j Hij Hi Hj.
  - now destruct i.
  - destruct j as [|j]; [lia|]. cbn in Hj. destruct i as [|i].
    + cbn in Hi. injection Hi as <-. rewrite Forall_forall in Hz.
      apply Hz. eapply nth_error_In; eassumption.
    + cbn in Hi. apply (IH i j); (assumption || lia).
Qed.

Lemma root_black_insert_all es t :
  is_red t = false -> is_red (insert_all es t) = false.
Proof.
  revert t. induction es as [|e es IH]; intros t Ht; cbn; [assumption|].
  apply IH. rewrite insert_fst. apply is_red_paint_black.
Qed.

Lemma paint_black_root_black t : is_red t = false -> paint_black t = t.
Proof. destruct t as [|[] ? ? ? ?]; cbn; (reflexivity || discriminate). Qed.

Lemma invariant_of_insert_all es :
  ordered (insert_all es empty) /\ annotated (insert_all es empty).
Proof.
  destruct (insert_all_invariant es empty ordered_empty annotated_empty)
    as (Ho & Ha & _). now split.
Qed.

Lemma elements_insert_all_iff es y :
  In y (elements (insert_all es empty)) <-> In y es.
Proof.
  rewrite elements_insert_all_In by (apply ordered_empty || apply annotated_empty).
  cbn. tauto.
Qed.

(** X15: [order_of_key(k)] is defined for every key, present or not: it
    is the number of distinct inserted values strictly below [k], never
    more than the size of the set, and it does not decrease when the key
    grows. *)
Theorem order_of_key_any_key (es : list Z) (key key' : Z) :
  order_of_key (insert_all es empty) key = count_less key (nodup Z.eq_dec es) /\
  (order_of_key (insert_all es empty) key <= size (insert_all es empty))%nat /\
  (key <= key' ->
   (order_of_key (insert_all es empty) key
    <= order_of_key (insert_all es empty) key')%nat).
Proof.
  destruct (invariant_of_insert_all es) as [Ho Ha].
  rewrite !order_of_key_spec by assumption. repeat split.
  - apply count_less_perm, elements_insert_all_perm.
  - rewrite size_elements. apply count_less_le_length.
  - apply count_less_mono.
Qed.

(** X16: [find_by_order(k)] returns the end iterator exactly when [k] is
    not below the size of the set, and below the size it enumerates the
    elements in strictly increasing order. *)
Theorem find_by_order_range_and_order (es : list Z) (i j : nat) (x y : Z) :
  (find_by_order (insert_all es empty) i = None
   <-> (size (insert_all es empty) <= i)%nat) /\
  ((i < j)%nat ->
   find_by_order (insert_all es empty) i = Some x ->
   find_by_order (insert_all es empty) j = Some y -> x < y).
Proof.
  destruct (invariant_of_insert_all es) as [Ho Ha].
  rewrite !find_by_order_spec by assumption. rewrite size_elements. split.
  - apply nth_error_None.
  - intros Hij Hi Hj. eapply sorted_nth_increasing; eassumption.
Qed.

(** X17: inserting into a set built by insertions reports [false] exactly
    when the value is already held, and then leaves the set as it is; a
    new value is reported [true] and the size grows by one; either way
    the value is an element afterwards. *)
Theorem insert_reports_new_elements (es : list Z) (x : Z) :
  (snd (insert x (insert_all es empty)) = false <-> In x es) /\
  (snd (insert x (insert_all es empty)) = false ->
   fst (insert x (insert_all es empty)) = insert_all es empty) /\
  (snd (insert x (insert_all es empty)) = true ->
   size (fst (insert x (insert_all es empty)))
   = S (size (insert_all es empty))) /\
  In x (elements (fst (insert x (insert_all es empty)))).
Proof.
  destruct (invariant_of_insert_all es) as [Ho Ha].
  pose proof (ins_fresh_iff x _ Ho) as Hfresh.
  rewrite <- insert_snd, elements_insert_all_iff in Hfresh.
  repeat split.
  - intros Hf. destruct (in_dec Z.eq_dec x es) as [Hin|Hnin]; [assumption|].
    apply Hfresh in Hnin. congruence.
  - intros Hin. destruct (snd (insert x (insert_all es empty))); [|reflexivity].
    exfalso. now apply (proj1 Hfresh).
  - intros Hf. rewrite insert_fst. rewrite insert_snd in Hf.
    rewrite (ins_stale _ _ Hf).
    apply paint_black_root_black, root_black_insert_all. reflexivity.
  - intros Ht. rewrite !size_elements, elements_insert by assumption.
    rewrite (Permutation_length
               (ins_list_fresh x _ ltac:(rewrite elements_insert_all_iff;
                                         now apply Hfresh))).
    reflexivity.
  - rewrite elements_insert by assumption. apply ins_list_In. now left.
Qed.

(** X18: the set depends on the inserted values only, not on their order
    or repetition: two sequences with the same values give the same
    iteration order and the same answers to both queries. *)
Theorem insertion_order_irrelevant (es es' : list Z) (key : Z) (k : nat) :
  (forall x, In x es <-> In x es') ->
  elements (insert_all es empty) = elements (insert_all es' empty) /\
  order_of_key (insert_all es empty) key
    = order_of_key (insert_all es' empty) key /\
  find_by_order (insert_all es empty) k = find_by_order (insert_all es' empty) k.
Proof.
  intros Hsame.
  destruct (invariant_of_insert_all es) as [Ho Ha].
  destruct (invariant_of_insert_all es') as [Ho' Ha'].
  assert (Heq : elements (insert_all es empty) = elements (insert_all es' empty)).
  { apply sorted_unique; try assumption.
    intros x. rewrite !elements_insert_all_iff. apply Hsame. }
  rewrite !order_of_key_spec, !find_by_order_spec by assumption.
  now rewrite Heq.
Qed.

Lemma insertion_order_irrelevant_witness :
  (forall x, In x [5; 3; 5; 8] <-> In x [8; 5; 3]) /\
  (elements (insert_all [5; 3; 5; 8] empty) = elements (insert_all [8; 5; 3] empty) /\
   order_of_key (insert_all [5; 3; 5; 8] empty) 6
     = order_of_key (insert_all [8; 5; 3] empty) 6 /\
   find_by_order (insert_all [5; 3; 5; 8] empty) 1
     = find_by_order (insert_all [8; 5; 3] empty) 1).
Proof.
  assert (Hsame : forall x, In x [5; 3; 5; 8] <-> In x [8; 5; 3])
    by (intros x; simpl; tauto).
  split; [exact Hsame|].
  exact (insertion_order_irrelevant [5; 3; 5; 8] [8; 5; 3] 6 1 Hsame).
Defined.

(** X19: a set built by insertions is a red-black tree with a black
    root, so it stays balanced: with [n] elements no path from the root
    is longer than [2 * log2 (n + 1)] nodes, which bounds the steps of
    both queries. *)
Theorem insert_all_balanced (es : list Z) :
  (exists n, red_black (insert_all es empty) n) /\
  is_red (insert_all es empty) = false /\
  (height (insert_all es empty)
   <= 2 * Nat.log2 (size (insert_all es empty) + 1))%nat.
Proof.
  destruct (red_black_insert_all es empty 0 rb_leaf) as [n Hn].
  pose proof (root_black_insert_all es empty eq_refl) as Hroot.
  destruct (red_black_height _ _ Hn) as [Hh Hs]. rewrite Hroot in Hh.
  repeat split; [now exists n|assumption|].
  assert (n <= Nat.log2 (size (insert_all es empty) + 1))%nat; [|lia].
  apply Nat.log2_le_pow2; lia.
Qed.

End OrderedSetFacts.

(** ** Facts about [randInt] *)

Module RandomFacts.
Import Random.

Lemma u64_small z : 0 <= z < 2 ^ 64 -> u64 z = z.
Proof. intros. unfold u64. now apply Z.mod_small. Qed.

Lemma u64_bound z : 0 <= u64 z < 2 ^ 64.
Proof. unfold u64. apply Z.mod_pos_bound. lia. Qed.

(** The width of the range as the library computes it. *)
Lemma urange_exact a b :
  Int64.in_range a -> Int64.in_range b -> a <= b ->
  u64 (u64 b - u64 a) = b - a.
Proof.
  unfold Int64.in_range, Int64.min_int, Int64.max_int, u64. intros Ha Hb Hab.
  rewrite <- Zminus_mod. apply Z.mod_small. lia.
Qed.

(** Adding the lower bound back lands in [[a, b]] without wrapping. *)
Lemma offset_exact a b ret :
  Int64.in_range a -> Int64.in_range b -> 0 <= ret <= b - a ->
  Int64.wrap (u64 (ret + u64 a)) = a + ret.
Proof.
  intros Ha Hb Hr.
  rewrite <- (Int64Facts.wrap_id (a + ret))
    by (unfold Int64.in_range, Int64.min_int, Int64.max_int in *; lia).
  apply Int64Facts.wrap_congr. unfold u64.
  rewrite Zmod_mod, Zplus_mod_idemp_r. f_equal. lia.
Qed.

Section Engine.
Variable engine : Type.
Variable draw : engine -> Z * engine.
Hypothesis draw_word : word_engine engine draw.

Lemma draw_bound g : 0 <= fst (draw g) < 2 ^ 32.
Proof.
  specialize (draw_word g). unfold urngmin, urngmax in draw_word. lia.
Qed.

Lemma product_bound g range :
  0 < range < 2 ^ 32 ->
  0 <= u64 (u64 (fst (draw g)) * u64 range) < 2 ^ 32 * range.
Proof.
  intros Hr. pose proof (draw_bound g) as Hx.
  rewrite (u64_small (fst (draw g))), (u64_small range) by lia.
  rewrite u64_small by nia. nia.
Qed.

Lemma nd_retry_bound fuel range threshold product g p g' :
  0 < range < 2 ^ 32 ->
  0 <= product < 2 ^ 32 * range ->
  nd_retry engine draw fuel range threshold product g = Some (p, g') ->
  0 <= p < 2 ^ 32 * range.
Proof.
  intros Hr. revert product g.
  induction fuel as [|fuel IH]; intros product g Hp; cbn.
  - destruct (u32 product <? threshold); [discriminate|].
    intros [= <- <-]. exact Hp.
  - destruct (u32 product <? threshold).
    + pose proof (product_bound g range Hr) as Hb.
      destruct (draw g) as [x g1]; cbn in Hb. apply IH. exact Hb.
    + intros [= <- <-]. exact Hp.
Qed.

Lemma high_word_bound p range :
  0 < range < 2 ^ 32 -> 0 <= p < 2 ^ 32 * range ->
  0 <= u32 (Z.shiftr p 32) < range.
Proof.
  intros Hr Hp. rewrite Z.shiftr_div_pow2 by lia.
  assert (0 <= p / 2 ^ 32 < range).
  { split; [apply Z.div_pos; lia|apply Z.div_lt_upper_bound; lia]. }
  unfold u32. rewrite Z.mod_small by lia. assumption.
Qed.

(** The downscaled draw lies in [[0, range)]. *)
Lemma nd_bound fuel range g ret g' :
  0 < range < 2 ^ 32 ->
  nd engine draw fuel range g = Some (ret, g') ->
  0 <= ret < range.
Proof.
  intros Hr. unfold nd.
  pose proof (product_bound g range Hr) as Hb.
  destruct (draw g) as [x g1]; cbn in Hb.
  destruct (u32 (u64 (u64 x * u64 range)) <? range).
  - destruct (nd_retry engine draw fuel range _ _ g1) as [[p g2]|] eqn:Hn;
      [|discriminate].
    intros [= <- <-]. apply high_word_bound; [assumption|].
    eapply nd_retry_bound; eassumption.
  - intros [= <- <-]. now apply high_word_bound.
Qed.

(** The upscaling loop only leaves with a draw in [[0, urange]]. *)
Lemma upscale_bound high_part urange fuel g ret g' :
  upscale engine draw high_part urange fuel g = Some (ret, g') ->
  0 <= ret <= urange.
Proof.
  revert g. induction fuel as [|fuel IH]; intros g; cbn; [discriminate|].
  destruct (high_part g) as [[high g1]|]; [|discriminate].
  destruct (draw g1) as [x g2].
  set (ret0 := u64 (_ + _)).
  destruct (Z.ltb_spec urange ret0) as [Hgt|Hle]; cbn.
  - apply IH.
  - destruct (ret0 <? _); [apply IH|].
    intros [= <- <-]. subst ret0.
    match goal with
    | |- 0 <= u64 ?z <= _ => pose proof (u64_bound z)
    end. lia.
Qed.

Lemma uniform_int_distribution_bound fuel a b g v g' :
  Int64.in_range a -> Int64.in_range b -> a <= b ->
  uniform_int_distribution engine draw fuel a b g = Some (v, g') ->
  a <= v <= b.
Proof.
  intros Ha Hb Hab. destruct fuel as [|fuel]; cbn; [discriminate|].
  rewrite (urange_exact a b Ha Hb Hab).
  assert (Hw : 0 <= b - a < 2 ^ 64)
    by (unfold Int64.in_range, Int64.min_int, Int64.max_int in *; lia).
  destruct (Z.ltb_spec (b - a) 4294967295) as [Hdown|Hnot].
  - destruct (nd engine draw fuel _ g) as [[ret g1]|] eqn:Hn; [|discriminate].
    intros [= <- <-].
    rewrite (u64_small (b - a + 1)) in Hn by lia.
    unfold u32 in Hn. rewrite Z.mod_small in Hn by lia.
    apply nd_bound in Hn; [|lia].
    rewrite (offset_exact a b) by (assumption || lia). lia.
  - destruct (Z.ltb_spec 4294967295 (b - a)) as [Hup|Heq].
    + destruct (upscale engine draw _ (b - a) fuel g) as [[ret g1]|] eqn:Hu;
        [|discriminate].
      intros [= <- <-]. apply upscale_bound in Hu.
      rewrite (offset_exact a b) by (assumption || lia). lia.
    + pose proof (draw_bound g) as Hx.
      destruct (draw g) as [x g1]; cbn in Hx.
      intros [= <- <-].
      rewrite (u64_small x) by lia.
      unfold urngmin. rewrite (u64_small (x - 0)) by lia.
      rewrite (offset_exact a b) by (assumption || lia). lia.
Qed.

(** The common path of a narrow range: when the low word of the first
    product is not below the width, the call returns at once, with the
    high word of the product added to [a]. *)
Lemma uniform_int_distribution_fast_path fuel a b g :
  Int64.in_range a -> Int64.in_range b -> a <= b -> b - a < 2 ^ 32 - 1 ->
  b - a + 1 <= (fst (draw g) * (b - a + 1)) mod 2 ^ 32 ->
  uniform_int_distribution engine draw (S fuel) a b g
    = Some (a + fst (draw g) * (b - a + 1) / 2 ^ 32, snd (draw g)).
Proof.
  intros Ha Hb Hab Hnarrow Hlow. cbn [uniform_int_distribution].
  rewrite (urange_exact a b Ha Hb Hab).
  assert (Hw : 0 <= b - a < 2 ^ 64)
    by (unfold Int64.in_range, Int64.min_int, Int64.max_int in *; lia).
  unfold urngrange, urngmax, urngmin.
  destruct (Z.ltb_spec (b - a) (2 ^ 32 - 1 - 0)) as [_|Hnot]; [|lia].
  rewrite (u64_small (b - a + 1)) by lia.
  unfold u32 at 1. rewrite (Z.mod_small (b - a + 1)) by lia.
  unfold nd. pose proof (draw_bound g) as Hx.
  pose proof (product_bound g (b - a + 1) ltac:(lia)) as Hp.
  destruct (draw g) as [x g1]; cbn [fst snd] in *.
  rewrite (u64_small x), (u64_small (b - a + 1)) in * by lia.
  rewrite (u64_small (x * (b - a + 1))) in * by nia.
  unfold u32 at 1.
  destruct (Z.ltb_spec ((x * (b - a + 1)) mod 2 ^ 32) (b - a + 1)) as [Hlt|_];
    [lia|].
  pose proof (high_word_bound (x * (b - a + 1)) (b - a + 1) ltac:(lia) Hp) as Hh.
  rewrite (offset_exact a b) by (assumption || lia).
  repeat f_equal. unfold u32. rewrite Z.shiftr_div_pow2 by lia.
  apply Z.mod_small. unfold u32 in Hh.
  rewrite Z.shiftr_div_pow2 in Hh by lia.
  assert (0 <= x * (b - a + 1) / 2 ^ 32 < b - a + 1).
  { split; [apply Z.div_pos; lia|apply Z.div_lt_upper_bound; lia]. }
  lia.
Qed.

End Engine.

Lemma lcg_word_engine : word_engine Z lcg_draw.
Proof.
  intros s. unfold lcg_draw, urngmin, urngmax. cbn [fst].
  set (s' := (_ mod 2 ^ 64)).
  assert (0 <= s' < 2 ^ 64) by (apply Z.mod_pos_bound; lia).
  rewrite Z.shiftr_div_pow2 by lia.
  assert (0 <= s' / 2 ^ 32 < 2 ^ 32).
  { split; [apply Z.div_pos; lia|apply Z.div_lt_upper_bound; lia]. }
  lia.
Qed.

(** *** [randInt] on concrete draws *)

Example randInt_die : randInt Z lcg_draw 5 1 6 42 = Some (4, 10481999410520546993).
Proof. vm_compute. reflexivity. Qed.

Example randInt_single : randInt Z lcg_draw 5 7 7 42 = Some (7, 10481999410520546993).
Proof. vm_compute. reflexivity. Qed.

Example randInt_wide :
  randInt Z lcg_draw 5 0 (2 ^ 40) 42 = Some (628033583269, 4159066171780167020).
Proof. vm_compute. reflexivity. Qed.

Example randInt_full_range :
  randInt Z lcg_draw 5 Int64.min_int Int64.max_int 42
    = Some (1258627372353583269, 4159066171780167020).
Proof. vm_compute. reflexivity. Qed.

(** *** The claim about [randInt] *)

(** C5, as stated, fails on a call whose bounds are reversed: the library
    distribution requires [l <= r] and does not check it, and
    [randInt(1, 0)] returns a value outside the (empty) range. *)
Lemma randInt_reversed_bounds :
  word_engine Z lcg_draw /\ Int64.in_range 1 /\ Int64.in_range 0 /\
  randInt Z lcg_draw 5 1 0 42
    = Some (-7964744664501192538, 4159066171780167020) /\
  ~ (1 <= -7964744664501192538 <= 0).
Proof.
  split; [exact lcg_word_engine|].
  repeat split; try (vm_compute; congruence). lia.
Qed.

(** Whatever a call with [l <= r] returns lies in the range. *)
Lemma randInt_result_in_range
      (engine : Type) (draw : engine -> Z * engine)
      (fuel : nat) (l r : Z) (rng rng' : engine) (v : Z) :
  word_engine engine draw ->
  Int64.in_range l -> Int64.in_range r -> l <= r ->
  randInt engine draw fuel l r rng = Some (v, rng') ->
  l <= v <= r.
Proof.
  intros Hw Hl Hr Hlr Hrun. unfold randInt in Hrun.
  eapply uniform_int_distribution_bound; eassumption.
Qed.

(** *** Further properties of [randInt] *)

(** A first word whose low product word is not below the threshold of
    the rejection loop is accepted at once. *)
Lemma nd_accepts (engine : Type) (draw : engine -> Z * engine)
      (fuel : nat) (W : Z) (g : engine) :
  0 < W < 2 ^ 32 -> 0 <= fst (draw g) < 2 ^ 32 ->
  (2 ^ 32 - W) mod W <= (fst (draw g) * W) mod 2 ^ 32 ->
  nd engine draw fuel W g = Some (fst (draw g) * W / 2 ^ 32, snd (draw g)).
Proof.
  intros HW Hx Hacc. unfold nd.
  destruct (draw g) as [x g1]; cbn [fst snd] in *.
  rewrite (u64_small x), (u64_small W) by lia.
  rewrite (u64_small (x * W)) by nia.
  assert (Hhigh : u32 (Z.shiftr (x * W) 32) = x * W / 2 ^ 32).
  { rewrite Z.shiftr_div_pow2 by lia. unfold u32. apply Z.mod_small.
    split; [apply Z.div_pos; nia|apply Z.div_lt_upper_bound; nia]. }
  assert (Hthr : u32 (- W) = 2 ^ 32 - W).
  { unfold u32. replace (- W) with (2 ^ 32 - W + (-1) * 2 ^ 32) by ring.
    rewrite Z_mod_plus_full. apply Z.mod_small. lia. }
  destruct (u32 (x * W) <? W).
  - rewrite Hthr.
    assert (Hno : (u32 (x * W) <? (2 ^ 32 - W) mod W) = false)
      by (apply Z.ltb_ge; exact Hacc).
    destruct fuel; cbn [nd_retry]; rewrite Hno; now rewrite Hhigh.
  - now rewrite Hhigh.
Qed.

Lemma uniform_int_distribution_accepts
      (engine : Type) (draw : engine -> Z * engine)
      (fuel : nat) (a b : Z) (g : engine) :
  Int64.in_range a -> Int64.in_range b -> a <= b -> b - a < 2 ^ 32 - 1 ->
  0 <= fst (draw g) < 2 ^ 32 ->
  (2 ^ 32 - (b - a + 1)) mod (b - a + 1)
    <= (fst (draw g) * (b - a + 1)) mod 2 ^ 32 ->
  uniform_int_distribution engine draw (S fuel) a b g
    = Some (a + fst (draw g) * (b - a + 1) / 2 ^ 32, snd (draw g)).
Proof.
  intros Ha Hb Hab Hnarrow Hx Hacc. cbn [uniform_int_distribution].
  rewrite (urange_exact a b Ha Hb Hab).
  unfold urngrange, urngmax, urngmin.
  destruct (Z.ltb_spec (b - a) (2 ^ 32 - 1 - 0)) as [_|Hnot]; [|lia].
  rewrite (u64_small (b - a + 1)) by lia.
  unfold u32 at 1. rewrite (Z.mod_small (b - a + 1)) by lia.
  rewrite (nd_accepts engine draw fuel (b - a + 1) g) by (assumption || lia).
  rewrite (offset_exact a b); [reflexivity|assumption|assumption|].
  assert (0 <= fst (draw g) * (b - a + 1) / 2 ^ 32 < b - a + 1); [|lia].
  split; [apply Z.div_pos; nia|apply Z.div_lt_upper_bound; nia].
Qed.

(** The word that yields the [k]-th value of a range of width [W]. *)
Lemma accepted_word_exists (W k : Z) :
  0 < W < 2 ^ 32 -> 0 <= k < W ->
  exists x, 0 <= x < 2 ^ 32 /\
            (2 ^ 32 - W) mod W <= (x * W) mod 2 ^ 32 /\
            x * W / 2 ^ 32 = k.
Proof.
  intros HW Hk.
  set (T := (2 ^ 32 - W) mod W).
  assert (HT : 0 <= T <= 2 ^ 32 - W).
  { split; [apply Z.mod_pos_bound; lia|apply Z.mod_le; lia]. }
  set (x := (k * 2 ^ 32 + T + W - 1) / W).
  pose proof (Z.div_mod (k * 2 ^ 32 + T + W - 1) W ltac:(lia)) as Hd.
  pose proof (Z.mod_pos_bound (k * 2 ^ 32 + T + W - 1) W ltac:(lia)) as Hm.
  fold x in Hd.
  assert (Hlo : k * 2 ^ 32 + T <= x * W) by lia.
  assert (Hhi : x * W <= k * 2 ^ 32 + 2 ^ 32 - 1) by lia.
  assert (Hq : x * W / 2 ^ 32 = k).
  { symmetry. apply (Z.div_unique _ _ k (x * W - k * 2 ^ 32)); lia. }
  assert (Hr : (x * W) mod 2 ^ 32 = x * W - k * 2 ^ 32).
  { symmetry. apply (Z.mod_unique _ _ k); lia. }
  exists x. repeat split.
  - apply Z.div_pos; lia.
  - nia.
  - rewrite Hr. lia.
  - exact Hq.
Qed.

(** X20: a call on a single-value range [randInt(l, l)] returns [l] at
    once and still takes one word from the engine. *)
Theorem randInt_single_value
        (engine : Type) (draw : engine -> Z * engine)
        (fuel : nat) (l : Z) (rng : engine) :
  word_engine engine draw -> Int64.in_range l ->
  randInt engine draw (S fuel) l l rng = Some (l, snd (draw rng)).
Proof.
  intros Hw Hl. unfold randInt.
  pose proof (draw_bound engine draw Hw rng) as Hx.
  rewrite uniform_int_distribution_accepts; try (assumption || lia).
  - rewrite Z.sub_diag, Z.add_0_l, Z.mul_1_r.
    rewrite Z.div_small by lia. f_equal. f_equal. lia.
  - rewrite Z.sub_diag, Z.add_0_l, Z.mod_1_r.
    apply Z.mod_pos_bound. lia.
Qed.

Lemma randInt_single_value_witness :
  (word_engine Z lcg_draw /\ Int64.in_range 7) /\
  randInt Z lcg_draw 1 7 7 42 = Some (7, snd (lcg_draw 42)).
Proof.
  assert (H7 : Int64.in_range 7) by (vm_compute; split; congruence).
  split; [exact (conj lcg_word_engine H7)|].
  exact (randInt_single_value Z lcg_draw 0 7 42 lcg_word_engine H7).
Defined.

(** X21: no value of a range narrower than the engine's is left out: for
    every [v] with [l <= v <= r] there is a 32-bit word on which, as the
    first word of the engine, [randInt(l, r)] returns [v] without a
    redraw. *)
Theorem randInt_reaches_every_value (l r v : Z) :
  Int64.in_range l -> Int64.in_range r ->
  l <= v <= r -> r - l < 2 ^ 32 - 1 ->
  exists x, 0 <= x < 2 ^ 32 /\
    forall (engine : Type) (draw : engine -> Z * engine)
           (fuel : nat) (rng : engine),
      fst (draw rng) = x ->
      randInt engine draw (S fuel) l r rng = Some (v, snd (draw rng)).
Proof.
  intros Hl Hr Hv Hnarrow.
  destruct (accepted_word_exists (r - l + 1) (v - l) ltac:(lia) ltac:(lia))
    as (x & Hx & Hacc & Hq).
  exists x. split; [exact Hx|].
  intros engine draw fuel rng Hdraw. unfold randInt.
  rewrite uniform_int_distribution_accepts;
    rewrite ?Hdraw; try (assumption || lia).
  rewrite Hq. f_equal. f_equal. lia.
Qed.

Lemma randInt_reaches_every_value_witness :
  (Int64.in_range 1 /\ Int64.in_range 6 /\ 1 <= 4 <= 6 /\ 6 - 1 < 2 ^ 32 - 1) /\
  exists x, 0 <= x < 2 ^ 32 /\
    forall (engine : Type) (draw : engine -> Z * engine)
           (fuel : nat) (rng : engine),
      fst (draw rng) = x ->
      randInt engine draw (S fuel) 1 6 rng = Some (4, snd (draw rng)).
Proof.
  assert (H1 : Int64.in_range 1) by (vm_compute; split; congruence).
  assert (H6 : Int64.in_range 6) by (vm_compute; split; congruence).
  assert (Hv : 1 <= 4 <= 6) by lia.
  assert (Hn : 6 - 1 < 2 ^ 32 - 1) by lia.
  split; [exact (conj H1 (conj H6 (conj Hv Hn)))|].
  exact (randInt_reaches_every_value 1 6 4 H1 H6 Hv Hn).
Defined.

(** *** Every call with [l <= r] returns *)

Lemma all_ones_accepted W : 0 < W <= 2 ^ 32 -> accepted W (2 ^ 32 - 1).
Proof.
  intros HW. unfold accepted.
  destruct (Z.eq_dec W (2 ^ 32)) as [->|Hne].
  - rewrite Z.sub_diag, Z.mod_0_l by lia. apply Z.mod_pos_bound. lia.
  - replace ((2 ^ 32 - 1) * W) with (2 ^ 32 - W + (W - 1) * 2 ^ 32) by ring.
    rewrite Z_mod_plus_full, (Z.mod_small (2 ^ 32 - W) (2 ^ 32)) by lia.
    apply Z.mod_le; lia.
Qed.

Lemma all_ones_high W : 0 < W <= 2 ^ 32 -> (2 ^ 32 - 1) * W / 2 ^ 32 = W - 1.
Proof.
  intros HW. symmetry.
  apply (Z.div_unique _ _ (W - 1) (2 ^ 32 - W)); lia.
Qed.

Lemma high_word_range x W :
  0 <= x < 2 ^ 32 -> 0 < W -> 0 <= x * W / 2 ^ 32 < W.
Proof.
  intros Hx HW.
  split; [apply Z.div_pos; nia|apply Z.div_lt_upper_bound; nia].
Qed.

Section Returns.
Variable engine : Type.
Variable draw : engine -> Z * engine.
Hypothesis draw_word : word_engine engine draw.

Lemma word_at_bound k g : 0 <= word_at engine draw k g < 2 ^ 32.
Proof. unfold word_at. apply (draw_bound engine draw draw_word). Qed.

Lemma skip_skip a b g :
  skip engine draw b (skip engine draw a g) = skip engine draw (a + b) g.
Proof.
  revert g. induction a as [|a IH]; intros g; cbn; [reflexivity|apply IH].
Qed.

Lemma word_at_skip a i g :
  word_at engine draw i (skip engine draw a g) = word_at engine draw (a + i) g.
Proof. unfold word_at. now rewrite skip_skip. Qed.

Lemma skip_S k g :
  skip engine draw (S k) g = snd (draw (skip engine draw k g)).
Proof.
  replace (S k) with (k + 1)%nat by lia. now rewrite <- skip_skip.
Qed.

(** A rejected first word costs one unit of fuel and one word. *)
Lemma nd_rejected_step fuel W g :
  0 < W < 2 ^ 32 -> ~ accepted W (word_at engine draw 0 g) ->
  nd engine draw (S fuel) W g = nd engine draw fuel W (snd (draw g)).
Proof.
  intros HW Hrej. unfold accepted, word_at in Hrej. cbn [skip] in Hrej.
  pose proof (draw_bound engine draw draw_word g) as Hx.
  pose proof (draw_bound engine draw draw_word (snd (draw g))) as Hx1.
  pose proof (Z.mod_pos_bound (2 ^ 32 - W) W ltac:(lia)) as HT.
  assert (Hthr : u32 (- W) = 2 ^ 32 - W).
  { unfold u32. replace (- W) with (2 ^ 32 - W + (-1) * 2 ^ 32) by ring.
    rewrite Z_mod_plus_full. apply Z.mod_small. lia. }
  unfold nd.
  destruct (draw g) as [x g1]; cbn [fst snd] in *.
  rewrite (u64_small x), (u64_small W) by lia.
  rewrite (u64_small (x * W)) by nia.
  unfold u32 at 1.
  destruct (Z.ltb_spec ((x * W) mod 2 ^ 32) W) as [_|Hge]; [|lia].
  rewrite Hthr. cbn [nd_retry]. unfold u32 at 1.
  destruct (Z.ltb_spec ((x * W) mod 2 ^ 32) ((2 ^ 32 - W) mod W)) as [_|Hge];
    [|lia].
  destruct (draw g1) as [x1 g2]; cbn [fst snd] in *.
  rewrite (u64_small x1), (u64_small W) by lia.
  rewrite (u64_small (x1 * W)) by nia.
  destruct (Z.ltb_spec (u32 (x1 * W)) W) as [Hlt|Hge]; [reflexivity|].
  assert (Hno : (u32 (x1 * W) <? (2 ^ 32 - W) mod W) = false)
    by (apply Z.ltb_ge; lia).
  destruct fuel; cbn [nd_retry]; now rewrite Hno.
Qed.

(** The downscaling loop returns on the first accepted word. *)
Lemma nd_first_accepted W j :
  0 < W < 2 ^ 32 ->
  forall g fuel,
    (forall i, (i < j)%nat -> ~ accepted W (word_at engine draw i g)) ->
    accepted W (word_at engine draw j g) ->
    (j <= fuel)%nat ->
    nd engine draw fuel W g
      = Some (word_at engine draw j g * W / 2 ^ 32, skip engine draw (S j) g).
Proof.
  intros HW. induction j as [|j IH]; intros g fuel Hrej Hacc Hf.
  - unfold word_at in *. cbn [skip] in *.
    apply nd_accepts; [assumption| |assumption].
    apply (draw_bound engine draw draw_word).
  - destruct fuel as [|fuel]; [lia|].
    rewrite nd_rejected_step; [|assumption|apply Hrej; lia].
    apply (IH (snd (draw g)) fuel); [|assumption|lia].
    intros i Hi. apply (Hrej (S i)). lia.
Qed.

Lemma first_accepted_exists W k :
  forall g, accepted W (word_at engine draw k g) ->
  exists j, (j <= k)%nat /\ accepted W (word_at engine draw j g) /\
            forall i, (i < j)%nat -> ~ accepted W (word_at engine draw i g).
Proof.
  induction k as [|k IH]; intros g Hacc.
  - exists 0%nat. repeat split; [lia|assumption|intros i Hi; lia].
  - destruct (Z_le_gt_dec ((2 ^ 32 - W) mod W)
                          ((word_at engine draw 0 g * W) mod 2 ^ 32)) as [H0|H0].
    + exists 0%nat. repeat split; [lia|exact H0|intros i Hi; lia].
    + destruct (IH (snd (draw g)) Hacc) as (j & Hj & Haj & Hrj).
      exists (S j). repeat split; [lia|exact Haj|].
      intros [|i] Hi; [unfold accepted; lia|]. apply (Hrj i). lia.
Qed.

(** The draw of the high part, from [[0, H]], returns on the first word
    accepted for [H + 1] values, with the high word of its product. *)
Lemma high_part_first_accepted H j g fuel :
  1 <= H < 2 ^ 32 ->
  (forall i, (i < j)%nat -> ~ accepted (H + 1) (word_at engine draw i g)) ->
  accepted (H + 1) (word_at engine draw j g) ->
  (S j <= fuel)%nat ->
  uniform_int_distribution engine draw fuel 0 H g
    = Some (word_at engine draw j g * (H + 1) / 2 ^ 32, skip engine draw (S j) g).
Proof.
  intros HH Hrej Hacc Hf. destruct fuel as [|fuel]; [lia|].
  assert (H0 : Int64.in_range 0) by (vm_compute; split; congruence).
  assert (HHr : Int64.in_range H)
    by (unfold Int64.in_range, Int64.min_int, Int64.max_int; lia).
  pose proof (word_at_bound j g) as Hx.
  pose proof (high_word_range _ (H + 1) Hx ltac:(lia)) as Hv.
  cbn [uniform_int_distribution].
  rewrite (urange_exact 0 H H0 HHr ltac:(lia)), Z.sub_0_r.
  unfold urngrange, urngmax, urngmin.
  destruct (Z.ltb_spec H (2 ^ 32 - 1 - 0)) as [Hnarrow|Hfull].
  - rewrite (u64_small (H + 1)) by lia.
    unfold u32 at 1. rewrite (Z.mod_small (H + 1)) by lia.
    rewrite (nd_first_accepted (H + 1) j ltac:(lia) g fuel Hrej Hacc ltac:(lia)).
    rewrite (offset_exact 0 H) by (assumption || lia).
    now rewrite Z.add_0_l.
  - assert (HM : H = 2 ^ 32 - 1) by lia. subst H.
    destruct (Z.ltb_spec (2 ^ 32 - 1 - 0) (2 ^ 32 - 1)) as [Hlt|_]; [lia|].
    assert (j = 0%nat) as ->.
    { destruct j as [|j]; [reflexivity|]. exfalso. apply (Hrej 0%nat); [lia|].
      unfold accepted. replace (2 ^ 32 - 1 + 1) with (2 ^ 32) by lia.
      rewrite Z.sub_diag, Z.mod_0_l by lia. apply Z.mod_pos_bound. lia. }
    unfold word_at in *. cbn [skip] in *.
    destruct (draw g) as [x g1]; cbn [fst snd] in *.
    rewrite (u64_small x) by lia. rewrite (u64_small (x - 0)) by lia.
    rewrite (offset_exact 0 (2 ^ 32 - 1)) by (assumption || lia).
    replace (2 ^ 32 - 1 + 1) with (2 ^ 32) by lia.
    rewrite Z.div_mul by lia. do 2 f_equal. lia.
Qed.

(** One round of the upscaling loop: the pair of high part and low word is
    taken when it does not exceed the width, and redrawn otherwise. *)
Lemma upscale_round hp U fuel g high g1 :
  hp g = Some (high, g1) -> 0 <= high < 2 ^ 32 -> 0 <= U < 2 ^ 64 ->
  upscale engine draw hp U (S fuel) g
    = if 2 ^ 32 * high + word_at engine draw 0 g1 <=? U
      then Some (2 ^ 32 * high + word_at engine draw 0 g1, snd (draw g1))
      else upscale engine draw hp U fuel (snd (draw g1)).
Proof.
  intros Hhp Hhigh HU. cbn [upscale]. rewrite Hhp.
  pose proof (word_at_bound 0 g1) as Hx. unfold word_at in *. cbn [skip] in *.
  destruct (draw g1) as [x g2]; cbn [fst snd] in *.
  replace (u64 (urngrange + 1)) with (2 ^ 32) by reflexivity.
  unfold urngmin.
  rewrite (u64_small high), (u64_small x) by lia.
  rewrite (u64_small (2 ^ 32 * high)), (u64_small (x - 0)) by lia.
  rewrite (u64_small (2 ^ 32 * high + (x - 0))) by lia.
  rewrite Z.sub_0_r.
  destruct (Z.leb_spec (2 ^ 32 * high + x) U) as [Hle|Hgt].
  - destruct (Z.ltb_spec U (2 ^ 32 * high + x)); [lia|].
    destruct (Z.ltb_spec (2 ^ 32 * high + x) (2 ^ 32 * high)); [lia|].
    reflexivity.
  - destruct (Z.ltb_spec U (2 ^ 32 * high + x)); [|lia]. reflexivity.
Qed.

Lemma high_bounds U :
  2 ^ 32 <= U < 2 ^ 64 -> 1 <= U / 2 ^ 32 < 2 ^ 32 /\ 2 ^ 32 * (U / 2 ^ 32) <= U.
Proof.
  intros HU. repeat split.
  - apply Z.div_le_lower_bound; lia.
  - apply Z.div_lt_upper_bound; lia.
  - apply Z.mul_div_le. lia.
Qed.

(** From the words 0, all ones, 0 the upscaling loop returns in its first
    round. *)
Lemma upscale_returns_tail U g :
  2 ^ 32 <= U < 2 ^ 64 ->
  word_at engine draw 0 g = 0 ->
  word_at engine draw 1 g = 2 ^ 32 - 1 ->
  word_at engine draw 2 g = 0 ->
  exists res, forall f1 f2, (2 <= f1)%nat -> (1 <= f2)%nat ->
    upscale engine draw (uniform_int_distribution engine draw f1 0 (U / 2 ^ 32))
            U f2 g = Some res.
Proof.
  intros HU H0 H1 H2. destruct (high_bounds U HU) as (HH & HHU).
  set (H := U / 2 ^ 32) in *.
  destruct (Z_le_gt_dec ((2 ^ 32 - (H + 1)) mod (H + 1))
                        ((word_at engine draw 0 g * (H + 1)) mod 2 ^ 32))
    as [Hacc|Hrej].
  - eexists. intros f1 [|f2] Hf1 Hf2; [lia|].
    rewrite (upscale_round _ U f2 g _ _
               (high_part_first_accepted H 0 g f1 HH
                  ltac:(intros i Hi; lia) Hacc ltac:(lia))).
    + rewrite H0, Z.mul_0_l, Z.div_0_l by lia.
      rewrite (word_at_skip 1 0 g). cbn [Nat.add]. rewrite H1.
      destruct (Z.leb_spec (2 ^ 32 * 0 + (2 ^ 32 - 1)) U); [reflexivity|lia].
    + rewrite H0, Z.mul_0_l, Z.div_0_l; lia.
    + lia.
  - eexists. intros f1 [|f2] Hf1 Hf2; [lia|].
    assert (Hacc1 : accepted (H + 1) (word_at engine draw 1 g))
      by (rewrite H1; apply all_ones_accepted; lia).
    assert (Hrej0 : forall i, (i < 1)%nat ->
                              ~ accepted (H + 1) (word_at engine draw i g)).
    { intros i Hi. replace i with 0%nat by lia. unfold accepted. lia. }
    rewrite (upscale_round _ U f2 g _ _
               (high_part_first_accepted H 1 g f1 HH Hrej0 Hacc1 ltac:(lia))).
    + rewrite H1, all_ones_high by lia.
      rewrite (word_at_skip 2 0 g). cbn [Nat.add]. rewrite H2.
      replace (H + 1 - 1) with H by lia.
      destruct (Z.leb_spec (2 ^ 32 * H + 0) U); [reflexivity|lia].
    + rewrite H1, all_ones_high; lia.
    + lia.
Qed.

(** Once the words all ones, 0, all ones, 0 lie ahead in a row, the
    upscaling loop returns: the first pair fits when the loop meets it
    with the high part, the second when it meets it with the low word. *)
Lemma upscale_returns U k :
  2 ^ 32 <= U < 2 ^ 64 ->
  forall g,
    word_at engine draw k g = 2 ^ 32 - 1 ->
    word_at engine draw (S k) g = 0 ->
    word_at engine draw (S (S k)) g = 2 ^ 32 - 1 ->
    word_at engine draw (S (S (S k))) g = 0 ->
    exists N res, forall f1 f2, (N <= f1)%nat -> (N <= f2)%nat ->
      upscale engine draw
              (uniform_int_distribution engine draw f1 0 (U / 2 ^ 32))
              U f2 g = Some res.
Proof.
  intros HU. destruct (high_bounds U HU) as (HH & HHU).
  set (H := U / 2 ^ 32) in *.
  induction k as [k IH] using lt_wf_ind. intros g P0 P1 P2 P3.
  assert (Hacck : accepted (H + 1) (word_at engine draw k g))
    by (rewrite P0; apply all_ones_accepted; lia).
  destruct (first_accepted_exists (H + 1) k g Hacck) as (j & Hjk & Haj & Hrj).
  pose proof (word_at_bound j g) as Hxj.
  pose proof (high_word_range _ (H + 1) Hxj ltac:(lia)) as Hhj.
  set (hj := word_at engine draw j g * (H + 1) / 2 ^ 32) in *.
  assert (Hhp : forall f1, (S j <= f1)%nat ->
            uniform_int_distribution engine draw f1 0 H g
            = Some (hj, skip engine draw (S j) g)).
  { intros f1 Hf1. now apply high_part_first_accepted. }
  assert (Hlow : word_at engine draw 0 (skip engine draw (S j) g)
                 = word_at engine draw (S j) g).
  { rewrite word_at_skip. f_equal. lia. }
  assert (Hround : forall f1 f2, (S j <= f1)%nat ->
            upscale engine draw (uniform_int_distribution engine draw f1 0 H)
                    U (S f2) g
            = if 2 ^ 32 * hj + word_at engine draw (S j) g <=? U
              then Some (2 ^ 32 * hj + word_at engine draw (S j) g,
                         skip engine draw (S (S j)) g)
              else upscale engine draw
                           (uniform_int_distribution engine draw f1 0 H)
                           U f2 (skip engine draw (S (S j)) g)).
  { intros f1 f2 Hf1.
    rewrite (upscale_round _ U f2 g hj _ (Hhp f1 Hf1)) by lia.
    now rewrite Hlow, <- skip_S. }
  destruct (Z.leb_spec (2 ^ 32 * hj + word_at engine draw (S j) g) U)
    as [Hfit|Hover].
  - exists (S j). eexists. intros f1 [|f2] Hf1 Hf2; [lia|].
    rewrite Hround by assumption.
    destruct (Z.leb_spec (2 ^ 32 * hj + word_at engine draw (S j) g) U);
      [reflexivity|lia].
  - assert (Hstep : forall f1 f2, (S j <= f1)%nat ->
              upscale engine draw (uniform_int_distribution engine draw f1 0 H)
                      U (S f2) g
              = upscale engine draw
                        (uniform_int_distribution engine draw f1 0 H)
                        U f2 (skip engine draw (S (S j)) g)).
    { intros f1 f2 Hf1. rewrite Hround by assumption.
      destruct (Z.leb_spec (2 ^ 32 * hj + word_at engine draw (S j) g) U);
        [lia|reflexivity]. }
    destruct (Nat.eq_dec j k) as [->|Hne].
    + exfalso. unfold hj in Hover. rewrite P0, P1, all_ones_high in Hover; lia.
    + destruct (Nat.eq_dec (S j) k) as [<-|Hne'].
      * destruct (upscale_returns_tail U (skip engine draw (S (S j)) g) HU)
          as [res Hres].
        -- rewrite word_at_skip. rewrite <- P1. f_equal. lia.
        -- rewrite word_at_skip. rewrite <- P2. f_equal. lia.
        -- rewrite word_at_skip. rewrite <- P3. f_equal. lia.
        -- exists (S (S (S j))), res. intros f1 [|f2] Hf1 Hf2; [lia|].
           rewrite Hstep by lia. apply Hres; lia.
      * destruct (IH (k - S (S j))%nat ltac:(lia)
                     (skip engine draw (S (S j)) g)) as (N & res & Hres).
        -- rewrite word_at_skip. rewrite <- P0. f_equal. lia.
        -- rewrite word_at_skip. rewrite <- P1. f_equal. lia.
        -- rewrite word_at_skip. rewrite <- P2. f_equal. lia.
        -- rewrite word_at_skip. rewrite <- P3. f_equal. lia.
        -- exists (S (N + S j)), res. intros f1 [|f2] Hf1 Hf2; [lia|].
           rewrite Hstep by lia. apply Hres; lia.
Qed.

(** With an engine of 32-bit words whose output runs through every four
    words in a row, the distribution returns for every [a <= b]. *)
Lemma uniform_int_distribution_returns a b g :
  Int64.in_range a -> Int64.in_range b -> a <= b ->
  runs_through engine draw g ->
  exists N v g', forall fuel, (N <= fuel)%nat ->
    uniform_int_distribution engine draw fuel a b g = Some (v, g').
Proof.
  intros Ha Hb Hab Hrun.
  destruct (Hrun (2 ^ 32 - 1) 0 (2 ^ 32 - 1) 0) as (k & P0 & P1 & P2 & P3);
    try lia.
  assert (Hw : 0 <= b - a < 2 ^ 64)
    by (unfold Int64.in_range, Int64.min_int, Int64.max_int in *; lia).
  destruct (Z_lt_ge_dec (b - a) (2 ^ 32 - 1)) as [Hnarrow|Hnot].
  - assert (Hacck : accepted (b - a + 1) (word_at engine draw k g))
      by (rewrite P0; apply all_ones_accepted; lia).
    destruct (first_accepted_exists (b - a + 1) k g Hacck)
      as (j & Hjk & Haj & Hrj).
    exists (S j). eexists. eexists. intros [|fuel] Hf; [lia|].
    cbn [uniform_int_distribution].
    rewrite (urange_exact a b Ha Hb Hab).
    unfold urngrange, urngmax, urngmin.
    destruct (Z.ltb_spec (b - a) (2 ^ 32 - 1 - 0)) as [_|Hge]; [|lia].
    rewrite (u64_small (b - a + 1)) by lia.
    unfold u32 at 1. rewrite (Z.mod_small (b - a + 1)) by lia.
    rewrite (nd_first_accepted (b - a + 1) j ltac:(lia) g fuel Hrj Haj ltac:(lia)).
    reflexivity.
  - destruct (Z.eq_dec (b - a) (2 ^ 32 - 1)) as [Heq|Hne].
    + destruct (draw g) as [x g1] eqn:Hdraw.
      exists 1%nat. eexists. eexists. intros [|fuel] Hf; [lia|].
      cbn [uniform_int_distribution].
      rewrite (urange_exact a b Ha Hb Hab), Heq.
      unfold urngrange, urngmax, urngmin.
      destruct (Z.ltb_spec (2 ^ 32 - 1) (2 ^ 32 - 1 - 0)) as [Hlt|_]; [lia|].
      destruct (Z.ltb_spec (2 ^ 32 - 1 - 0) (2 ^ 32 - 1)) as [Hlt|_]; [lia|].
      rewrite Hdraw. reflexivity.
    + destruct (upscale_returns (b - a) k ltac:(lia) g P0 P1 P2 P3)
        as (N & [ret g'] & Hres).
      destruct (high_bounds (b - a) ltac:(lia)) as (HH & _).
      exists (S N). eexists. eexists. intros [|fuel] Hf; [lia|].
      cbn [uniform_int_distribution].
      rewrite (urange_exact a b Ha Hb Hab).
      unfold urngrange, urngmax, urngmin.
      destruct (Z.ltb_spec (b - a) (2 ^ 32 - 1 - 0)) as [Hlt|_]; [lia|].
      destruct (Z.ltb_spec (2 ^ 32 - 1 - 0) (b - a)) as [_|Hge]; [|lia].
      replace (u64 (2 ^ 32 - 1 - 0 + 1)) with (2 ^ 32) by reflexivity.
      rewrite (Int64Facts.wrap_id ((b - a) / 2 ^ 32))
        by (unfold Int64.in_range, Int64.min_int, Int64.max_int; lia).
      rewrite Hres by lia. reflexivity.
Qed.

End Returns.

(** The counting engine has both properties asked of an engine. *)
Lemma odometer_word_engine : word_engine nat odometer_draw.
Proof.
  intros n. unfold odometer_draw, urngmin, urngmax. cbn [fst].
  match goal with
  | |- _ <= ?z mod 2 ^ 32 <= _ => pose proof (Z.mod_pos_bound z (2 ^ 32) ltac:(lia))
  end. lia.
Qed.

Lemma odometer_skip k n : skip nat odometer_draw k n = (n + k)%nat.
Proof.
  revert n. induction k as [|k IH]; intros n; cbn [skip].
  - lia.
  - rewrite IH. cbn. lia.
Qed.

Lemma limb_div a q B : 0 <= a < B -> (a + B * q) / B = q.
Proof. intros Ha. symmetry. apply (Z.div_unique _ _ q a); lia. Qed.

Lemma limb_mod a q B : 0 <= a < B -> (a + B * q) mod B = a.
Proof. intros Ha. symmetry. apply (Z.mod_unique _ _ q a); lia. Qed.

Lemma odometer_word (C i : Z) (k : nat) :
  0 <= C -> 0 <= i < 4 -> Z.of_nat k = 4 * C + i ->
  word_at nat odometer_draw k 0%nat = (C / 2 ^ (32 * i)) mod 2 ^ 32.
Proof.
  intros HC Hi Hk. unfold word_at. rewrite odometer_skip. cbn [Nat.add].
  unfold odometer_draw. cbn [fst]. rewrite Hk.
  replace (4 * C + i) with (i + 4 * C) by ring.
  now rewrite limb_div, limb_mod by lia.
Qed.

Lemma odometer_runs_through : runs_through nat odometer_draw 0%nat.
Proof.
  intros w0 w1 w2 w3 H0 H1 H2 H3.
  set (C := w0 + 2 ^ 32 * (w1 + 2 ^ 32 * (w2 + 2 ^ 32 * w3))).
  assert (HC : 0 <= C) by (unfold C; nia).
  exists (Z.to_nat (4 * C)). repeat split.
  - rewrite (odometer_word C 0) by lia.
    change (2 ^ (32 * 0)) with 1. rewrite Z.div_1_r.
    unfold C. apply limb_mod. lia.
  - rewrite (odometer_word C 1) by lia.
    change (32 * 1) with 32. unfold C.
    rewrite limb_div by lia. apply limb_mod. lia.
  - rewrite (odometer_word C 2) by lia.
    change (2 ^ (32 * 2)) with (2 ^ 32 * 2 ^ 32).
    rewrite <- Z.div_div by lia. unfold C.
    rewrite !limb_div by lia. apply limb_mod. lia.
  - rewrite (odometer_word C 3) by lia.
    change (2 ^ (32 * 3)) with (2 ^ 32 * 2 ^ 32 * 2 ^ 32).
    rewrite <- !Z.div_div by lia. unfold C.
    rewrite !limb_div by lia. apply Z.mod_small. lia.
Qed.

Example randInt_counting_engine :
  randInt nat odometer_draw 4 1 6 0%nat = None /\
  randInt nat odometer_draw 5 1 6 0%nat = Some (1, 5%nat) /\
  randInt nat odometer_draw 30 0 (2 ^ 40) 0%nat = Some (0, 6%nat).
Proof. repeat split; vm_compute; reflexivity. Qed.

(** An engine that never yields an accepted word keeps the distribution
    redrawing: stuck at 0, it lets no call on the range [[0, 2]] return. *)
Lemma randInt_stuck_engine (fuel : nat) (g : unit) :
  word_engine unit zero_draw /\ randInt unit zero_draw fuel 0 2 g = None.
Proof.
  split; [intros u; unfold urngmin, urngmax; cbn; lia|].
  assert (Hloop : forall f u, nd_retry unit zero_draw f 3 1 0 u = None).
  { induction f as [|f IH]; intros u; [reflexivity|]. cbn. apply IH. }
  destruct fuel as [|fuel]; [reflexivity|].
  unfold randInt. cbn [uniform_int_distribution].
  replace (u64 (u64 2 - u64 0)) with 2 by reflexivity.
  replace (2 <? urngrange) with true by reflexivity.
  replace (u32 (u64 (2 + 1))) with 3 by reflexivity.
  unfold nd. cbn [zero_draw].
  replace (u64 (u64 0 * u64 3)) with 0 by reflexivity.
  replace (u32 0 <? 3) with true by reflexivity.
  replace (u32 (- 3) mod 3) with 1 by reflexivity.
  now rewrite Hloop.
Qed.

(** C5 (amended): every call [randInt(l, r)] with [l <= r] returns, and
    the returned value [v] satisfies [l <= v <= r].  The engine is taken
    with two properties of [mt19937]: it yields 32-bit words, and its
    output runs through every four words in a row, so that the redraws of
    the distribution come to an end.  The call returns the same result
    for every bound on the redraws from some bound on, and whatever it
    returns under any bound lies in the range. *)
Theorem randInt_within_range
        (engine : Type) (draw : engine -> Z * engine)
        (l r : Z) (rng : engine) :
  word_engine engine draw -> runs_through engine draw rng ->
  Int64.in_range l -> Int64.in_range r -> l <= r ->
  (exists fuel v rng',
      (forall fuel', (fuel <= fuel')%nat ->
                     randInt engine draw fuel' l r rng = Some (v, rng')) /\
      l <= v <= r) /\
  (forall fuel v rng',
      randInt engine draw fuel l r rng = Some (v, rng') -> l <= v <= r).
Proof.
  intros Hw Hrun Hl Hr Hlr.
  assert (Hpart : forall fuel v rng',
             randInt engine draw fuel l r rng = Some (v, rng') -> l <= v <= r).
  { intros fuel v rng' Hres. eapply randInt_result_in_range; eassumption. }
  split; [|exact Hpart].
  destruct (uniform_int_distribution_returns engine draw Hw l r rng
              Hl Hr Hlr Hrun) as (N & v & rng' & Hret).
  exists N, v, rng'. split.
  - intros fuel' Hf. unfold randInt. now apply Hret.
  - apply (Hpart N v rng'). unfold randInt. apply Hret. lia.
Qed.

Lemma randInt_within_range_witness :
  (word_engine nat odometer_draw /\ runs_through nat odometer_draw 0%nat /\
   Int64.in_range 1 /\ Int64.in_range 6 /\ 1 <= 6) /\
  ((exists fuel v rng',
       (forall fuel', (fuel <= fuel')%nat ->
                      randInt nat odometer_draw fuel' 1 6 0%nat = Some (v, rng')) /\
       1 <= v <= 6) /\
   (forall fuel v rng',
       randInt nat odometer_draw fuel 1 6 0%nat = Some (v, rng') -> 1 <= v <= 6)).
Proof.
  assert (H1 : Int64.in_range 1) by (vm_compute; split; congruence).
  assert (H6 : Int64.in_range 6) by (vm_compute; split; congruence).
  assert (Hle : 1 <= 6) by lia.
  split;
    [exact (conj odometer_word_engine
                 (conj odometer_runs_through (conj H1 (conj H6 Hle))))|].
  exact (randInt_within_range nat odometer_draw 1 6 0%nat
           odometer_word_engine odometer_runs_through H1 H6 Hle).
Defined.

End RandomFacts.

(** ** Facts about the program *)

Module ProgramFacts.
Import Program.

Local Open Scope string_scope.

(** *** The debug macro *)

Example print_values :
  _print (VVector [VInt 1; VInt (-20); VInt 300]) = "[ 1 -20 300 ]" /\
  _print (VPair (VString "ab") (VBool true)) = "{ab, true}" /\
  _print (VMap [(VInt 1, VChar "a"%char); (VInt 2, VChar "b"%char)])
    = "{ {1, a} {2, b} }" /\
  _print (VSet []) = "{ }".
Proof. repeat split; reflexivity. Qed.

(** A local build prints the text of the argument, its value and a line
    end, and evaluates the argument once. *)
Example debug_local_build :
  cerr (exec (debug false noisy) console) = "next() = 41" ++ endl /\
  cout (exec (debug false noisy) console) = "+".
Proof. split; reflexivity. Qed.

Example debug_judge_build :
  cerr (exec (debug true noisy) console) = "" /\
  cout (exec (debug true noisy) console) = "".
Proof. split; reflexivity. Qed.

(** C8: when [ONLINE_JUDGE] is defined, every expansion of [debug(x)] is
    empty: no statement is left, so the argument is not evaluated,
    nothing is written to the standard error stream, and the world is as
    it was. *)
Theorem debug_online_judge_empty (x : expr) (w : world) :
  debug true x = [] /\
  exec (debug true x) w = w /\
  cerr (exec (debug true x) w) = cerr w.
Proof. repeat split. Qed.

(** *** The test-case loop *)

Lemma while_t_zero fuel body s :
  while_t (S fuel) body 0 s = Some (-1, s).
Proof. reflexivity. Qed.


(** Any run of the loop from [t = 1] that ends has called the body once
    more, whatever the fuel. *)
Lemma while_t_one fuel body s r :
  while_t fuel body 1 s = Some r ->
  r = (-1, call body s).
Proof.
  destruct fuel as [|[|fuel]]; cbn; try discriminate.
  now intros [= <-].
Qed.

Lemma main_with_runs ONLINE_JUDGE body fuel w :
  exists w',
    main_with ONLINE_JUDGE body (S (S fuel)) w = Some (0, mkState (body w') 1) /\
    cout w' = cout w /\ cerr w' = cerr w.
Proof.
  unfold main_with. destruct ONLINE_JUDGE; cbn;
    eexists; (split; [reflexivity|split; reflexivity]).
Qed.

Lemma main_with_result ONLINE_JUDGE body fuel w status s :
  main_with ONLINE_JUDGE body fuel w = Some (status, s) ->
  status = 0 /\ solve_calls s = 1%nat /\
  exists w', now s = body w' /\ cout w' = cout w /\ cerr w' = cerr w.
Proof.
  unfold main_with.
  match goal with
  | |- match while_t fuel body 1 ?s0 with _ => _ end = _ -> _ =>
      destruct (while_t fuel body 1 s0) as [[t' s']|] eqn:Hrun; [|discriminate]
  end.
  apply while_t_one in Hrun. injection Hrun as -> ->.
  intros [= <- <-]. split; [reflexivity|split; [reflexivity|]].
  destruct ONLINE_JUDGE; cbn; eexists; (split; [reflexivity|split; reflexivity]).
Qed.

(** *** The claims about [main] *)


(** C7: on every normal completion the exit status is 0, whatever
    [solve] does; and with [solve] left empty no output is produced: the
    texts written to [cout] and [cerr] are as they were at the start.
    No run of [main] returns another status. *)
Theorem main_exits_zero_without_output
        (ONLINE_JUDGE : bool) (fuel : nat) (w : world) :
  (forall body status s,
      main_with ONLINE_JUDGE body fuel w = Some (status, s) -> status = 0) /\
  (forall status s,
      main ONLINE_JUDGE fuel w = Some (status, s) ->
      status = 0 /\ cout (now s) = cout w /\ cerr (now s) = cerr w) /\
  (exists s, main ONLINE_JUDGE (S (S fuel)) w = Some (0, s) /\
             cout (now s) = cout w /\ cerr (now s) = cerr w).
Proof.
  split; [|split].
  - intros body status s Hrun. now apply main_with_result in Hrun.
  - intros status s Hrun. apply main_with_result in Hrun.
    destruct Hrun as (-> & _ & w' & -> & Hout & Herr). unfold solve. auto.
  - destruct (main_with_runs ONLINE_JUDGE solve fuel w) as (w' & Hrun & Hout & Herr).
    eexists. split; [exact Hrun|]. cbn. unfold solve. auto.
Qed.

(** A local run on a console where only [input.txt] can be opened. *)
Example main_local_run :
  main false 2
       (mkWorld true true false Console Console Console "" ""
                (fun p => String.eqb p "input.txt"))
  = Some (0, mkState
               (mkWorld false false false (File "input.txt") Broken Broken "" ""
                        (fun p => String.eqb p "input.txt"))
               1).
Proof. reflexivity. Qed.

Example main_judge_run :
  main true 2 console
  = Some (0, mkState (mkWorld false false false Console Console Console "" ""
                              (fun _ => true)) 1) /\
  main true 1 console = None.
Proof. split; reflexivity. Qed.

(** *** Further properties of the debug tools *)

Lemma string_app_assoc (s1 s2 s3 : string) : (s1 ++ s2) ++ s3 = s1 ++ s2 ++ s3.
Proof. induction s1 as [|c s1 IH]; cbn; [reflexivity|now rewrite IH]. Qed.

Lemma cerr_write_twice s1 s2 w :
  cerr_write s2 (cerr_write s1 w) = cerr_write (s1 ++ s2) w.
Proof. unfold cerr_write. cbn. now rewrite string_app_assoc. Qed.

Lemma debug_statements_concat ONLINE_JUDGE x :
  List.concat (debug_statements ONLINE_JUDGE x) = debug ONLINE_JUDGE x.
Proof. now destruct ONLINE_JUDGE. Qed.

Example if_false_debug_still_prints :
  cerr (exec_if_debug false false noisy console) = "41" ++ endl /\
  cout (exec_if_debug false false noisy console) = "+".
Proof. split; reflexivity. Qed.

(** X7: in a local build, [debug(x)] on an argument without side effects
    and with value [v] appends exactly the text of the argument, [" = "],
    the printed value and a line end to the standard error stream, and
    changes nothing else: standard output in particular is untouched. *)
Theorem debug_local_prints_name_and_value (x : expr) (v : value) (w : world) :
  (forall w0, eval x w0 = (v, w0)) ->
  exec (debug false x) w = cerr_write (text x ++ " = " ++ _print v ++ endl) w /\
  cout (exec (debug false x) w) = cout w.
Proof.
  intros Hpure.
  assert (Hrun : exec (debug false x) w
                 = cerr_write (text x ++ " = " ++ _print v ++ endl) w).
  { unfold exec, debug. cbn [fold_left exec_stmt]. rewrite Hpure.
    now rewrite !cerr_write_twice. }
  split; [exact Hrun|]. now rewrite Hrun.
Qed.

Lemma debug_local_prints_name_and_value_witness :
  (forall w0, eval (mkExpr "n" (fun w1 => (VInt 5, w1))) w0 = (VInt 5, w0)) /\
  (exec (debug false (mkExpr "n" (fun w1 => (VInt 5, w1)))) console
     = cerr_write ("n" ++ " = " ++ _print (VInt 5) ++ endl) console /\
   cout (exec (debug false (mkExpr "n" (fun w1 => (VInt 5, w1)))) console)
     = cout console).
Proof.
  assert (Hpure : forall w0, eval (mkExpr "n" (fun w1 => (VInt 5, w1))) w0
                             = (VInt 5, w0)) by reflexivity.
  split; [exact Hpure|].
  exact (debug_local_prints_name_and_value _ (VInt 5) console Hpure).
Defined.

(** X8: [debug(x)] is not a single statement.  Under [if (c) debug(x);]
    in a local build the condition governs only the output of the name:
    with [c] false the argument is still evaluated and its value and the
    line end are still printed; with [c] true the statement behaves as
    [debug(x)]; in a judge build nothing happens either way. *)
Theorem if_debug_guards_first_statement_only (x : expr) (c : bool) (w : world) :
  exec_if_debug false false x w
    = cerr_write endl (cerr_write (_print (fst (eval x w))) (snd (eval x w))) /\
  exec_if_debug false true x w = exec (debug false x) w /\
  exec_if_debug true c x w = w.
Proof.
  unfold exec_if_debug, exec, debug. cbn.
  destruct (eval x w) as [v w']. repeat split.
Qed.

(** X9: a map prints as the set of its entries, each entry printed by the
    overload for pairs. *)
Theorem print_map_as_set_of_pairs (v : list (value * value)) :
  _print (VMap v) = _print (VSet (map (fun i => VPair (fst i) (snd i)) v)).
Proof.
  cbn [_print]. f_equal.
  induction v as [|i v IH]; cbn [map fold_right]; [reflexivity|].
  now rewrite IH.
Qed.

(** X10: the text printed for an integer reads back as that integer: it
    is its decimal numeral, with a minus sign for a negative one. *)
Theorem print_int_reads_back (x : Z) :
  option_map Z.of_int (NilZero.int_of_string (_print (VInt x))) = Some x.
Proof.
  cbn [_print]. rewrite NilZero.isi.
  - cbn. now rewrite DecimalZ.of_to.
  - destruct x; cbn; try discriminate.
    intros [= H]. now apply (DecimalPos.Unsigned.to_uint_nonnil p).
  - destruct x; cbn; try discriminate.
    intros [= H]. now apply (DecimalPos.Unsigned.to_uint_nonnil p).
Qed.

(** *** Further properties of [main] and its loop *)

(** [main] makes its settings before [solve] runs and ignores the
    results of [freopen]: the body of [solve] starts in a world with
    stdio synchronisation off and [cin] untied; in a local build each
    standard stream is connected to its file when the file opens and is
    left broken when it does not, and in a judge build the streams stay
    where they were.  In every case [solve] runs once and the status is 0. *)
Theorem main_sets_up_before_solve
        (ONLINE_JUDGE : bool) (body : world -> world) (fuel : nat) (w : world) :
  exists w',
    main_with ONLINE_JUDGE body (S (S fuel)) w = Some (0, mkState (body w') 1) /\
    sync_with_stdio w' = false /\ cin_tied w' = false /\ cout_tied w' = false /\
    stdin_from w' =
      (if ONLINE_JUDGE then stdin_from w
       else if openable w "input.txt" then File "input.txt" else Broken) /\
    stdout_to w' =
      (if ONLINE_JUDGE then stdout_to w
       else if openable w "output.txt" then File "output.txt" else Broken) /\
    stderr_to w' =
      (if ONLINE_JUDGE then stderr_to w
       else if openable w "debug.txt" then File "debug.txt" else Broken) /\
    cout w' = cout w /\ cerr w' = cerr w.
Proof.
  unfold main_with. destruct ONLINE_JUDGE; cbn; eexists;
    (split; [reflexivity|]); cbn; repeat split.
Qed.

Lemma while_t_negative fuel body t s :
  Int64.min_int <= t < 0 ->
  (fuel <= Z.to_nat (t - Int64.min_int) + 1)%nat ->
  while_t fuel body t s = None.
Proof.
  revert t s. induction fuel as [|fuel IH]; intros t s Ht Hf; [reflexivity|].
  cbn [while_t]. destruct (Z.eqb_spec t 0) as [->|_]; [lia|].
  destruct (Z.eq_dec t Int64.min_int) as [->|Hne].
  - assert (fuel = 0%nat) by (rewrite Z.sub_diag in Hf; cbn in Hf; lia).
    subst fuel. reflexivity.
  - rewrite Int64Facts.wrap_id
      by (unfold Int64.in_range, Int64.min_int, Int64.max_int in *; lia).
    apply IH; [lia|]. lia.
Qed.



(** X12: the loop does not guard against a negative test-case count: from
    [t < 0] the condition stays true all the way down to the least
    [long long], so the loop has not ended after [t - min + 1] tests. *)
Theorem test_case_loop_negative_count
        (body : world -> world) (t : Z) (s : state) (fuel : nat) :
  Int64.min_int <= t < 0 ->
  (fuel <= Z.to_nat (t - Int64.min_int) + 1)%nat ->
  while_t fuel body t s = None.
Proof.
  intros Ht Hf. now apply while_t_negative.
Qed.

Lemma test_case_loop_negative_count_witness :
  (Int64.min_int <= -1 < 0 /\ (1000 <= Z.to_nat (-1 - Int64.min_int) + 1)%nat) /\
  while_t 1000 solve (-1) (mkState console 0) = None.
Proof.
  assert (H1 : Int64.min_int <= -1 < 0) by (unfold Int64.min_int; lia).
  assert (H2 : (1000 <= Z.to_nat (-1 - Int64.min_int) + 1)%nat)
    by (unfold Int64.min_int; lia).
  split; [split; assumption|].
  exact (test_case_loop_negative_count solve (-1) (mkState console 0) 1000 H1 H2).
Defined.

End ProgramFacts.
